(** * Tic-tac-toe with move history (exercise 06/03): the history store

    A shallow embedding of [src/exercises/06.tic-tac-toe/03.problem.history/index.tsx]:
    the [App] component's state ([GameState]), its initialiser reading
    [localStorage], the [selectSquare] click handler, the move-list
    buttons and [restart], with the JavaScript array operations the
    handlers rely on ([Array.prototype.slice], [Array.prototype.with],
    indexed reads) written out, including what they do out of range. *)

From Stdlib Require Import ZArith String Ascii Lia.
From stdpp Require Import base decidable option list relations.

Local Open Scope Z_scope.

(** ** JavaScript exceptions as an error monad *)

Inductive JsError := TypeError | RangeError | SyntaxError.

Inductive result (A : Type) : Type :=
| Ok (a : A)
| Throw (e : JsError).
Arguments Ok {A} a.
Arguments Throw {A} e.

Definition rbind {A B} (m : result A) (k : A -> result B) : result B :=
  match m with
  | Ok a => k a
  | Throw e => Throw e
  end.

Notation "'let*' x ':=' m 'in' k" := (rbind m (fun x => k))
  (at level 10, x name, m at level 100, k at level 200).

(** ** JavaScript arrays as lists *)

Module Js.

(** [arr[i]] for an integral [i]: [None] is [undefined]. *)
Definition get {A} (arr : list A) (i : Z) : option A :=
  if decide (0 <= i) then arr !! Z.to_nat i else None.

(** Reading a property of [undefined] throws a [TypeError]. *)
Definition defined {A} (v : option A) : result A :=
  match v with
  | Some a => Ok a
  | None => Throw TypeError
  end.

(** A relative index as [slice] resolves it: negative counts from the
    end, and the result is clamped to [0 .. len]. *)
Definition clamp (len rel : Z) : Z :=
  if rel <? 0 then Z.max (len + rel) 0 else Z.min rel len.

(** [arr.slice(start, end)]. *)
Definition slice {A} (arr : list A) (start end_ : Z) : list A :=
  let len := Z.of_nat (length arr) in
  let k := clamp len start in
  let final := clamp len end_ in
  take (Z.to_nat (final - k)) (drop (Z.to_nat k) arr).

(** [arr.with(index, value)]: a copy with one element replaced; a
    negative index counts from the end, and an index outside the array
    throws a [RangeError]. *)
Definition with_ {A} (arr : list A) (index : Z) (value : A) : result (list A) :=
  let len := Z.of_nat (length arr) in
  let actual := if index <? 0 then len + index else index in
  if (actual <? 0) || (len <=? actual) then Throw RangeError
  else Ok (<[Z.to_nat actual := value]> arr).

End Js.

(** ** JSON: values, [JSON.parse] and [JSON.stringify]

    Strings of JSON values are sequences of 16-bit code units; the text
    kept in [localStorage] is a [string] whose characters are read as code
    units.  Number literals are evaluated exactly: a literal whose value is
    an integer is a [JNumber], any other one is kept as mantissa and
    decimal exponent (floating-point rounding is outside the model). *)

Module JSON.

#[local] Unset Elimination Schemes.
Inductive value :=
| JNull
| JBool (b : bool)
| JNumber (n : Z)
| JDouble (mantissa exponent : Z)
| JString (s : list N)
| JArray (elements : list value)
| JObject (properties : list (list N * value)).
#[local] Set Elimination Schemes.

(** The code units of a literal. *)
Definition codes (s : string) : list N :=
  map N_of_ascii (list_ascii_of_string s).

(** [object[key]] *)
Fixpoint prop (key : list N) (properties : list (list N * value)) : option value :=
  match properties with
  | [] => None
  | (k, v) :: rest => if decide (k = key) then Some v else prop key rest
  end.

(** Defining a property: a key already present keeps its place and
    takes the new value. *)
Fixpoint set_prop (key : list N) (v : value) (properties : list (list N * value))
  : list (list N * value) :=
  match properties with
  | [] => [(key, v)]
  | (k, w) :: rest =>
      if decide (k = key) then (k, v) :: rest else (k, w) :: set_prop key v rest
  end.

(** *** Parsing *)

(** The quotation mark and the backslash. *)
Abbreviation dquote := ("034"%char).
Abbreviation backslash := ("092"%char).

(** The outcome of a parser run on a text: a value and the rest of the
    text, a syntax error, or the recursion budget exhausted. *)
Inductive parsed (A : Type) : Type :=
| Parsed (a : A) (rest : string)
| Failed
| OutOfFuel.
Arguments Parsed {A} a rest.
Arguments Failed {A}.
Arguments OutOfFuel {A}.

Definition pmap {A B} (f : A -> B) (p : parsed A) : parsed B :=
  match p with
  | Parsed a rest => Parsed (f a) rest
  | Failed => Failed
  | OutOfFuel => OutOfFuel
  end.

Definition of_option {A} (o : option (A * string)) : parsed A :=
  match o with
  | Some (a, rest) => Parsed a rest
  | None => Failed
  end.

Definition is_ws (c : ascii) : bool :=
  Ascii.eqb c " " || Ascii.eqb c "009" || Ascii.eqb c "010" || Ascii.eqb c "013".

Fixpoint skip_ws (s : string) : string :=
  match s with
  | String c s' => if is_ws c then skip_ws s' else s
  | EmptyString => s
  end.

(** [strip literal s]: [s] without its prefix [literal]. *)
Fixpoint strip (literal s : string) : option string :=
  match literal, s with
  | EmptyString, _ => Some s
  | String a literal', String b s' =>
      if Ascii.eqb a b then strip literal' s' else None
  | String _ _, EmptyString => None
  end.

Definition digit (c : ascii) : option N :=
  let n := N_of_ascii c in
  if (48 <=? n)%N && (n <=? 57)%N then Some (n - 48)%N else None.

Definition hex (c : ascii) : option N :=
  let n := N_of_ascii c in
  if (48 <=? n)%N && (n <=? 57)%N then Some (n - 48)%N
  else if (65 <=? n)%N && (n <=? 70)%N then Some (n - 55)%N
  else if (97 <=? n)%N && (n <=? 102)%N then Some (n - 87)%N
  else None.

(** The code unit an escape letter stands for ([\u] apart). *)
Definition escape (c : ascii) : option N :=
  if Ascii.eqb c dquote then Some 34%N
  else if Ascii.eqb c backslash then Some 92%N
  else if Ascii.eqb c "/" then Some 47%N
  else if Ascii.eqb c "b" then Some 8%N
  else if Ascii.eqb c "f" then Some 12%N
  else if Ascii.eqb c "n" then Some 10%N
  else if Ascii.eqb c "r" then Some 13%N
  else if Ascii.eqb c "t" then Some 9%N
  else None.

(** The characters of a string literal, after its opening quote. *)
Fixpoint parse_chars (s : string) : option (list N * string) :=
  match s with
  | EmptyString => None
  | String c s' =>
      if Ascii.eqb c dquote then Some ([], s')
      else if Ascii.eqb c backslash then
        match s' with
        | EmptyString => None
        | String e s'' =>
            if Ascii.eqb e "u" then
              match s'' with
              | String h1 (String h2 (String h3 (String h4 s4))) =>
                  match hex h1, hex h2, hex h3, hex h4, parse_chars s4 with
                  | Some a, Some b, Some c, Some d, Some (cs, rest) =>
                      Some ((((a * 16 + b) * 16 + c) * 16 + d)%N :: cs, rest)
                  | _, _, _, _, _ => None
                  end
              | _ => None
              end
            else
              match escape e, parse_chars s'' with
              | Some u, Some (cs, rest) => Some (u :: cs, rest)
              | _, _ => None
              end
        end
      else if (N_of_ascii c <? 32)%N then None
      else
        match parse_chars s' with
        | Some (cs, rest) => Some (N_of_ascii c :: cs, rest)
        | None => None
        end
  end.

(** The longest prefix of decimal digits, and the rest. *)
Fixpoint span_digits (s : string) : list N * string :=
  match s with
  | EmptyString => ([], s)
  | String c s' =>
      match digit c with
      | Some d => let '(ds, rest) := span_digits s' in (d :: ds, rest)
      | None => ([], s)
      end
  end.

Definition digits_value (ds : list N) : Z :=
  Z.of_N (fold_left (fun acc d => (10 * acc + d)%N) ds 0%N).

Definition signed (negative : bool) (n : Z) : Z :=
  if negative then - n else n.

(** The number [mantissa * 10 ^ exponent]. *)
Definition scaled (mantissa exponent : Z) : value :=
  if 0 <=? exponent then JNumber (mantissa * 10 ^ exponent)
  else if mantissa mod 10 ^ (- exponent) =? 0
       then JNumber (mantissa / 10 ^ (- exponent))
       else JDouble mantissa exponent.

(** An optional minus sign. *)
Definition sign (s : string) : bool * string :=
  match s with
  | String c s' => if Ascii.eqb c "-" then (true, s') else (false, s)
  | EmptyString => (false, s)
  end.

(** An optional fraction: a point and at least one digit. *)
Definition fraction (s : string) : option (list N * string) :=
  match s with
  | String c s' =>
      if Ascii.eqb c "." then
        let '(frac, rest) := span_digits s' in
        match frac with
        | [] => None
        | _ => Some (frac, rest)
        end
      else Some ([], s)
  | EmptyString => Some ([], s)
  end.

(** An optional exponent: [e] or [E], an optional sign and at least one
    digit. *)
Definition exponent (s : string) : option (Z * string) :=
  match s with
  | String c s' =>
      if Ascii.eqb c "e" || Ascii.eqb c "E" then
        let '(negative, s'') :=
          match s' with
          | String c' s'' =>
              if Ascii.eqb c' "-" then (true, s'')
              else if Ascii.eqb c' "+" then (false, s'')
              else (false, s')
          | EmptyString => (false, s')
          end in
        let '(ds, rest) := span_digits s'' in
        match ds with
        | [] => None
        | _ => Some (signed negative (digits_value ds), rest)
        end
      else Some (0, s)
  | EmptyString => Some (0, s)
  end.

(** [-? int frac? exp?], where [int] has no superfluous leading zero. *)
Definition parse_number (s : string) : option (value * string) :=
  let '(negative, s1) := sign s in
  let '(int, s2) := span_digits s1 in
  match int with
  | [] => None
  | 0%N :: _ :: _ => None
  | _ =>
      match fraction s2 with
      | None => None
      | Some (frac, s3) =>
          match exponent s3 with
          | None => None
          | Some (e, s4) =>
              Some (scaled (signed negative (digits_value (int ++ frac)))
                           (e - Z.of_nat (length frac)), s4)
          end
      end
  end.

Definition object_of (members : list (list N * value)) : value :=
  JObject (fold_left (fun properties kv => set_prop kv.1 kv.2 properties) members []).

(** The grammar, one level deep: a value, where [elements] and [members]
    parse what follows an opening bracket or brace. *)
Definition value_step
    (elements : string -> parsed (list value))
    (members : string -> parsed (list (list N * value)))
    (s : string) : parsed value :=
  match skip_ws s with
  | EmptyString => Failed
  | String c s' =>
      if Ascii.eqb c "[" then
        match skip_ws s' with
        | String c' s'' =>
            if Ascii.eqb c' "]" then Parsed (JArray []) s''
            else pmap JArray (elements s')
        | EmptyString => Failed
        end
      else if Ascii.eqb c "{" then
        match skip_ws s' with
        | String c' s'' =>
            if Ascii.eqb c' "}" then Parsed (JObject []) s''
            else pmap object_of (members s')
        | EmptyString => Failed
        end
      else if Ascii.eqb c dquote then pmap JString (of_option (parse_chars s'))
      else if Ascii.eqb c "n" then
        pmap (fun _ => JNull) (of_option (pair tt <$> strip "ull" s'))
      else if Ascii.eqb c "t" then
        pmap (fun _ => JBool true) (of_option (pair tt <$> strip "rue" s'))
      else if Ascii.eqb c "f" then
        pmap (fun _ => JBool false) (of_option (pair tt <$> strip "alse" s'))
      else of_option (parse_number (String c s'))
  end.

(** The elements of a non-empty array, up to and including its closing
    bracket. *)
Definition elements_step
    (item : string -> parsed value)
    (elements : string -> parsed (list value))
    (s : string) : parsed (list value) :=
  match item s with
  | Parsed v s' =>
      match skip_ws s' with
      | String c s'' =>
          if Ascii.eqb c "," then pmap (cons v) (elements s'')
          else if Ascii.eqb c "]" then Parsed [v] s''
          else Failed
      | EmptyString => Failed
      end
  | Failed => Failed
  | OutOfFuel => OutOfFuel
  end.

(** The members of a non-empty object, up to and including its closing
    brace. *)
Definition members_step
    (item : string -> parsed value)
    (members : string -> parsed (list (list N * value)))
    (s : string) : parsed (list (list N * value)) :=
  match skip_ws s with
  | String q s1 =>
      if Ascii.eqb q dquote then
        match parse_chars s1 with
        | Some (k, s2) =>
            match skip_ws s2 with
            | String c s3 =>
                if Ascii.eqb c ":" then
                  match item s3 with
                  | Parsed v s4 =>
                      match skip_ws s4 with
                      | String c' s5 =>
                          if Ascii.eqb c' "," then pmap (cons (k, v)) (members s5)
                          else if Ascii.eqb c' "}" then Parsed [(k, v)] s5
                          else Failed
                      | EmptyString => Failed
                      end
                  | Failed => Failed
                  | OutOfFuel => OutOfFuel
                  end
                else Failed
            | EmptyString => Failed
            end
        | None => Failed
        end
      else Failed
  | EmptyString => Failed
  end.

(** Recursive descent; every level of recursion spends one unit of
    [fuel]. *)
Fixpoint parse_value (fuel : nat) (s : string) : parsed value :=
  match fuel with
  | O => OutOfFuel
  | S fuel => value_step (parse_elements fuel) (parse_members fuel) s
  end
with parse_elements (fuel : nat) (s : string) : parsed (list value) :=
  match fuel with
  | O => OutOfFuel
  | S fuel => elements_step (parse_value fuel) (parse_elements fuel) s
  end
with parse_members (fuel : nat) (s : string) : parsed (list (list N * value)) :=
  match fuel with
  | O => OutOfFuel
  | S fuel => members_step (parse_value fuel) (parse_members fuel) s
  end.

(** A parser that consumes part of its input whenever it succeeds. *)
Definition shrinks {A} (p : string -> parsed A) : Prop :=
  forall s a rest,
    p s = Parsed a rest -> (String.length rest < String.length s)%nat.

(** [q] answers as [p] does wherever [p] has fuel enough to answer. *)
Definition extends {A} (p q : string -> parsed A) : Prop :=
  forall s, p s <> OutOfFuel -> q s = p s.

(** A character that stands for itself inside a string literal. *)
Definition plain (c : ascii) : bool :=
  negb (Ascii.eqb c dquote) && negb (Ascii.eqb c backslash)
  && negb (N_of_ascii c <? 32)%N.

(** A character after which a number literal ends. *)
Definition ends_number (c : ascii) : Prop :=
  digit c = None /\ Ascii.eqb c "." = false
  /\ Ascii.eqb c "e" = false /\ Ascii.eqb c "E" = false.

(** The budget [parse] gives the descent; it is never exhausted
    ([parse_value_fuel] below). *)
Definition budget (text : string) : nat := 2 * String.length text + 1.

(** [JSON.parse(text)]: one value, with nothing but white space after
    it; anything else is a [SyntaxError]. *)
Definition parse (text : string) : result value :=
  match parse_value (budget text) text with
  | Parsed v rest =>
      match skip_ws rest with
      | EmptyString => Ok v
      | String _ _ => Throw SyntaxError
      end
  | Failed | OutOfFuel => Throw SyntaxError
  end.

(** *** Printing *)

Definition digit_char (d : N) : ascii := ascii_of_N (48 + d).

Fixpoint decimal_fuel (fuel : nat) (n : N) : string :=
  match fuel with
  | O => EmptyString
  | S fuel =>
      if (n <? 10)%N then String (digit_char n) EmptyString
      else (decimal_fuel fuel (n / 10)%N ++ String (digit_char (n mod 10)%N) EmptyString)%string
  end.

(** The digits [decimal_fuel] writes, as numbers. *)
Fixpoint digits_fuel (fuel : nat) (n : N) : list N :=
  match fuel with
  | O => []
  | S fuel =>
      if (n <? 10)%N then [n]
      else digits_fuel fuel (n / 10)%N ++ [(n mod 10)%N]
  end.

(** The decimal digits of a natural number. *)
Definition decimal (n : N) : string := decimal_fuel (S (N.to_nat (N.log2 n))) n.

Definition decimal_Z (n : Z) : string :=
  if n <? 0 then String "-" (decimal (Z.abs_N n)) else decimal (Z.abs_N n).

Definition hex_char (d : N) : ascii :=
  if (d <? 10)%N then ascii_of_N (48 + d) else ascii_of_N (87 + d).

Definition unicode_escape (u : N) : string :=
  String backslash (String "u"
    (String (hex_char ((u / 4096) mod 16)%N)
    (String (hex_char ((u / 256) mod 16)%N)
    (String (hex_char ((u / 16) mod 16)%N)
    (String (hex_char (u mod 16)%N) EmptyString))))).

(** One code unit inside a string literal; code units above 255 are
    written as escapes, the text being 8-bit. *)
Definition quote_unit (u : N) : string :=
  if (u =? 34)%N then String backslash (String dquote EmptyString)
  else if (u =? 92)%N then String backslash (String backslash EmptyString)
  else if (u =? 8)%N then String backslash "b"
  else if (u =? 12)%N then String backslash "f"
  else if (u =? 10)%N then String backslash "n"
  else if (u =? 13)%N then String backslash "r"
  else if (u =? 9)%N then String backslash "t"
  else if (u <? 32)%N || (255 <? u)%N then unicode_escape u
  else String (ascii_of_N u) EmptyString.

Definition quote (s : list N) : string :=
  String dquote (String.concat EmptyString (map quote_unit s) ++ String dquote EmptyString)%string.

(** [JSON.stringify(v)], without indentation. *)
Fixpoint stringify (v : value) : string :=
  match v with
  | JNull => "null"
  | JBool true => "true"
  | JBool false => "false"
  | JNumber n => decimal_Z n
  | JDouble m e => (decimal_Z m ++ "e" ++ decimal_Z e)%string
  | JString s => quote s
  | JArray elements =>
      ("[" ++ String.concat "," (map stringify elements) ++ "]")%string
  | JObject properties =>
      ("{" ++ String.concat ","
                (map (fun kv => quote kv.1 ++ ":" ++ stringify kv.2) properties) ++ "}")%string
  end.

(** A value that [parse_value], given [need] units of fuel or more, reads
    back from what [stringify] writes for it, whatever text follows; its
    text starts with [c], which opens a value. *)
Definition reads_back (need : nat) (v : value) : Prop :=
  (forall fuel rest,
     (need <= fuel)%nat -> parse_value fuel (stringify v ++ rest) = Parsed v rest)
  /\ exists c tail,
       stringify v = String c tail
       /\ is_ws c = false /\ Ascii.eqb c "]" = false.

End JSON.
(** ** Data model

    The types [Player], [Squares] and [GameState] are imported from
    [#shared/tic-tac-toe-utils], which is not among the sources; they are
    taken from the spec's data model (a cell is empty, markerA or markerB; a
    snapshot is a sequence of cells; a state is a history and a cursor) and
    from the way [index.tsx] builds and reads them. *)

(** The two markers, ['X'] being markerA and ['O'] markerB. *)
Inductive Player := X | O.

(** [Squares = Array<Player | null>]; [None] is [null]. *)
Definition Squares := list (option Player).

(** [{ history: Array<Squares>, currentStep: number }] *)
Record GameState := mkGameState {
  history : list Squares;
  currentStep : Z
}.

#[global] Instance Player_eq_dec : EqDecision Player.
Proof. solve_decision. Defined.

#[global] Instance GameState_eq_dec : EqDecision GameState.
Proof. solve_decision. Defined.

(** Truthiness of [winner] ([Player | null]). *)
Definition truthy (v : option Player) : bool :=
  match v with
  | Some _ => true
  | None => false
  end.

(** Truthiness of a cell read [squares[index]], which is a [Player],
    [null] or (out of range) [undefined]. *)
Definition truthy_cell (v : option (option Player)) : bool :=
  match v with
  | Some (Some _) => true
  | _ => false
  end.

(** ** The helpers imported from [#shared/tic-tac-toe-utils] *)

(** Modelled from the spec: the "8 lines (3 rows, 3 columns, 2
    diagonals)" that [calculateWinner] checks. *)
Definition lines : list (Z * Z * Z) :=
  [(0, 1, 2); (3, 4, 5); (6, 7, 8);
   (0, 3, 6); (1, 4, 7); (2, 5, 8);
   (0, 4, 8); (2, 4, 6)].

(** Modelled from the spec: the marker of a line that holds "three equal
    non-empty markers". *)
Definition line_winner (squares : Squares) (l : Z * Z * Z) : option Player :=
  let '(a, b, c) := l in
  match Js.get squares a, Js.get squares b, Js.get squares c with
  | Some (Some p), Some (Some q), Some (Some r) =>
      if decide (p = q /\ p = r) then Some p else None
  | _, _, _ => None
  end.

(** Modelled from the spec: [calculateWinner] of the shared utilities,
    which are not among the sources.  "winner(snapshot) -> marker | none:
    checks all 8 lines (3 rows, 3 columns, 2 diagonals) for three equal
    non-empty markers." *)
Definition calculateWinner (squares : Squares) : option Player :=
  list_find (fun l => is_Some (line_winner squares l)) lines
    ≫= fun il => line_winner squares il.2.

(** Modelled from the spec: the "count of filled cells" that
    [calculateNextValue] goes by. *)
Definition filled (squares : Squares) : nat :=
  length (filter (fun c : option Player => is_Some c) squares).

(** Modelled from the spec: [calculateNextValue] of the shared utilities,
    which are not among the sources.  "nextMover(snapshot) -> marker:
    alternates based on count of filled cells (even count -> markerA,
    odd -> markerB)", markerA being [X] and markerB [O]. *)
Definition calculateNextValue (squares : Squares) : Player :=
  if Nat.even (filled squares) then X else O.

(** ** A state as a JSON value *)

(** A cell: [null], ['X'] or ['O']. *)
Definition square_toJSON (c : option Player) : JSON.value :=
  match c with
  | None => JSON.JNull
  | Some X => JSON.JString (JSON.codes "X")
  | Some O => JSON.JString (JSON.codes "O")
  end.

(** A snapshot: the array of its cells. *)
Definition squares_toJSON (squares : Squares) : JSON.value :=
  JSON.JArray (map square_toJSON squares).

(** A [GameState] as the JSON value that [JSON.stringify] prints for it:
    an object with the properties [history] and [currentStep], in the
    order in which [defaultState] and the updaters write them. *)
Definition toJSON (state : GameState) : JSON.value :=
  JSON.JObject
    [(JSON.codes "history", JSON.JArray (map squares_toJSON (history state)));
     (JSON.codes "currentStep", JSON.JNumber (currentStep state))].

(** Modelled from the spec: a candidate for a cell of a "valid 9-cell
    snapshot", which is [null], ['X'] or ['O']. *)
Definition isSquare (v : JSON.value) : option (option Player) :=
  match v with
  | JSON.JNull => Some None
  | JSON.JString s =>
      if decide (s = JSON.codes "X") then Some (Some X)
      else if decide (s = JSON.codes "O") then Some (Some O)
      else None
  | _ => None
  end.

(** Modelled from the spec: a candidate for a "valid 9-cell snapshot", an
    array of nine cells. *)
Definition isSquares (v : JSON.value) : option Squares :=
  match v with
  | JSON.JArray elements =>
      squares ← mapM isSquare elements;
      if decide (length squares = 9%nat) then Some squares else None
  | _ => None
  end.

(** Modelled from the spec: [isValidGameState] of the shared utilities,
    which are not among the sources.  "isValidState(candidate) -> bool:
    structural validation used when deserializing persisted state (must
    have history as non-empty sequence of valid 9-cell snapshots,
    currentStep in range)."  It is a TypeScript type guard: [Some state]
    is the answer [true], with the candidate seen as the [GameState] it
    is; [None] is the answer [false]. *)
Definition isValidGameState (candidate : JSON.value) : option GameState :=
  match candidate with
  | JSON.JObject properties =>
      match JSON.prop (JSON.codes "history") properties,
            JSON.prop (JSON.codes "currentStep") properties with
      | Some (JSON.JArray snapshots), Some (JSON.JNumber step) =>
          history ← mapM isSquares snapshots;
          if decide (history ≠ [] ∧ 0 <= step < Z.of_nat (length history))
          then Some {| history := history; currentStep := step |}
          else None
      | _, _ => None
      end
  | _ => None
  end.

(** ** The component *)

(** [{ history: [Array(9).fill(null)], currentStep: 0 }] *)
Definition defaultState : GameState :=
  {| history := [replicate 9 None]; currentStep := 0 |}.

(** The [useState] initialiser; [item] is what
    [window.localStorage.getItem(localStorageKey)] returns, [None] being
    [null]. *)
Definition initialState (item : option string) : GameState :=
  match JSON.parse (default "null"%string item) with
  | Throw _ =>
      (* something is wrong in localStorage, so don't use it *)
      defaultState
  | Ok localStorageValue =>
      match isValidGameState localStorageValue with
      | Some state => state
      | None => defaultState
      end
  end.

(** The effect run after a render: the text written back to
    [localStorage] under [localStorageKey]. *)
Definition persist (state : GameState) : string :=
  JSON.stringify (toJSON state).

(** One button of the move list. *)
Record MoveButton := mkMoveButton {
  key : Z;
  desc : string;
  disabled : bool;
  onClick : GameState -> GameState
}.

(** One square button of the board: the index its click passes to
    [onClick], its label and the marker it shows. *)
Record SquareButton := mkSquareButton {
  square : Z;
  label : string;
  value : option (option Player)
}.

Definition Player_text (p : Player) : string :=
  match p with
  | X => "X"
  | O => "O"
  end.

(** [Board]: nine buttons, for the indices 0 to 8, each calling
    [onClick(i)] with its own index. *)
Definition renderSquare (squares : Squares) (i : Z) : SquareButton :=
  let shown := Js.get squares i in
  let text :=
    match shown with
    | Some (Some p) =>
        ("square " ++ JSON.decimal_Z i ++ ", " ++ Player_text p)%string
    | _ => ("square " ++ JSON.decimal_Z i ++ " empty")%string
    end in
  {| square := i; label := text; value := shown |}.

Definition Board (squares : Squares) : list SquareButton :=
  map (renderSquare squares) [0; 1; 2; 3; 4; 5; 6; 7; 8].

(** The body of [App] for one render; [state] is the state that render
    closes over. *)
Section App.

Variable state : GameState.

(** [state.history[state.currentStep]]; every use of it in the render
    reads a property of it, which throws when it is [undefined]. *)
Definition currentSquares : result Squares :=
  Js.defined (Js.get (history state) (currentStep state)).

Definition winner : result (option Player) :=
  let* squares := currentSquares in Ok (calculateWinner squares).

Definition nextValue : result Player :=
  let* squares := currentSquares in Ok (calculateNextValue squares).

(** [selectSquare(index)]: [Ok None] is the early [return]; otherwise
    the updater handed to [setState], which may itself throw. *)
Definition selectSquare (index : Z)
  : result (option (GameState -> result GameState)) :=
  let* winner := winner in
  let* nextValue := nextValue in
  let* squares := currentSquares in
  if truthy winner || truthy_cell (Js.get squares index) then Ok None
  else Ok (Some (fun previousState =>
    let currentStep := currentStep previousState in
    let history := history previousState in
    let newHistory := Js.slice history 0 (currentStep + 1) in
    let* current := Js.defined (Js.get history currentStep) in
    let* squares := Js.with_ current index (Some nextValue) in
    Ok {| history := newHistory ++ [squares];
          currentStep := Z.of_nat (length newHistory) |})).

(** [restart()] hands [defaultState] to [setState]. *)
Definition restart : GameState := defaultState.

(** The move list: one button per snapshot of the history. *)
Definition moves : list MoveButton :=
  imap (fun (step : nat) (_stepSquares : Squares) =>
          let step := Z.of_nat step in
          let description :=
            if step =? 0 then "Go to game start"%string
            else ("Go to move number " ++ JSON.decimal_Z step)%string in
          let isCurrentStep := bool_decide (step = currentStep state) in
          {| key := step;
             desc := description;
             disabled := isCurrentStep;
             onClick := fun previousState =>
               {| history := history previousState; currentStep := step |} |})
       (history state).

(** The board shown by this render. *)
Definition board : result (list SquareButton) :=
  let* squares := currentSquares in Ok (Board squares).

End App.

(** ** Events

    An event handler runs between two renders, so the [previousState]
    an updater receives is the state the handler's render closed over. *)

(** A click on square [index] (the spec's [advanceMove]). *)
Definition advanceMove (state : GameState) (index : Z) : result GameState :=
  let* update := selectSquare state index in
  match update with
  | None => Ok state
  | Some updater => updater state
  end.

(** A click on the [step]-th button of the move list (the spec's
    [jumpToStep]); there is no such button outside the history, and a
    disabled button fires no event. *)
Definition jumpToStep (state : GameState) (step : nat) : option GameState :=
  button ← moves state !! step;
  Some (if disabled button then state else onClick button state).

(** ** Well-formedness of a [GameState] (spec, data model) *)

(** [0 <= currentStep < length(history)]. *)
Definition cursor_in_range (state : GameState) : Prop :=
  0 <= currentStep state < Z.of_nat (length (history state)).

(** A [BoardSnapshot] is a fixed-size sequence of nine cells; a list does
    not carry its length, so it is stated separately. *)
Definition nine_cells (state : GameState) : Prop :=
  Forall (fun squares : Squares => length squares = 9%nat) (history state).


(** One user event on a rendered state: a click on one of the nine
    squares of the board, on a button of the move list, or on restart. *)
Inductive event : GameState -> GameState -> Prop :=
| event_square state squares button state' :
    board state = Ok squares ->
    button ∈ squares ->
    advanceMove state (square button) = Ok state' ->
    event state state'
| event_move state step state' :
    jumpToStep state step = Some state' ->
    event state state'
| event_restart state :
    event state restart.

(** The states the application can be in: the initial state, whatever
    [localStorage] holds at startup, followed by any number of events. *)
Definition reachable (state : GameState) : Prop :=
  exists item, rtc event (initialState item) state.

(** Two consecutive snapshots of a game: exactly one cell differs, empty
    before and marked after. *)
Definition one_move (before after : Squares) : Prop :=
  exists (i : nat) (p : Player),
    before !! i = Some None /\ after = <[i := Some p]> before.

(** Every snapshot but the first is one move after its predecessor. *)
Definition move_by_move (snapshots : list Squares) : Prop :=
  forall (i : nat) (before after : Squares),
    snapshots !! i = Some before -> snapshots !! S i = Some after ->
    one_move before after.

(** A finished game, used in examples: X plays 0, O plays 3, X plays 1,
    O plays 4, X plays 2 and wins the top row at step 5. *)
Definition finished_game : GameState :=
  {| history :=
       [[None;   None;   None;   None;   None;   None; None; None; None];
        [Some X; None;   None;   None;   None;   None; None; None; None];
        [Some X; None;   None;   Some O; None;   None; None; None; None];
        [Some X; Some X; None;   Some O; None;   None; None; None; None];
        [Some X; Some X; None;   Some O; Some O; None; None; None; None];
        [Some X; Some X; Some X; Some O; Some O; None; None; None; None]];
     currentStep := 5 |}.

(** The same history, rewound to step 3. *)
Definition rewound_game : GameState :=
  {| history := history finished_game; currentStep := 3 |}.

(** Fuel enough for every snapshot of a history. *)
Definition snapshot_fuel (snapshots : list Squares) : nat :=
  3 + max_list (map length snapshots).


(** The invariant of the data model: a history that is not empty, and a
    cursor inside it. *)
Definition well_formed (state : GameState) : Prop :=
  history state <> [] /\ cursor_in_range state.

(** A persisted state that passes the structural validation although its
    second snapshot is three moves away from the first. *)
Definition tampered_state : GameState :=
  {| history :=
       [[None;   None;   None;   None; None; None; None; None; None];
        [Some X; Some X; Some X; None; None; None; None; None; None]];
     currentStep := 0 |}.
(** * Properties of the array operations *)

Module JsFacts.

Lemma get_Some {A} (arr : list A) (i : Z) (x : A) :
  Js.get arr i = Some x <-> 0 <= i /\ arr !! Z.to_nat i = Some x.
Proof.
  unfold Js.get. destruct (decide (0 <= i)); split; intros H;
    try tauto; try easy.
Qed.

Lemma get_lt {A} (arr : list A) (i : Z) (x : A) :
  Js.get arr i = Some x -> 0 <= i < Z.of_nat (length arr).
Proof.
  intros [Hi Hx]%get_Some. apply lookup_lt_Some in Hx. lia.
Qed.

Lemma get_in_range {A} (arr : list A) (i : Z) :
  0 <= i < Z.of_nat (length arr) -> is_Some (Js.get arr i).
Proof.
  intros Hi. unfold Js.get. destruct (decide (0 <= i)); [|lia].
  apply lookup_lt_is_Some. lia.
Qed.

(** [slice(0, i + 1)] at an index inside the array keeps the elements
    up to and including index [i]. *)
Lemma slice_upto {A} (arr : list A) (i : Z) :
  0 <= i < Z.of_nat (length arr) ->
  Js.slice arr 0 (i + 1) = take (S (Z.to_nat i)) arr.
Proof.
  intros Hi. unfold Js.slice, Js.clamp.
  destruct (Z.ltb_spec 0 0); [lia|].
  destruct (Z.ltb_spec (i + 1) 0); [lia|].
  rewrite Z.min_l by lia. rewrite Z.min_l by lia. simpl.
  f_equal. lia.
Qed.

Lemma with_in_range {A} (arr : list A) (i : Z) (v : A) :
  0 <= i < Z.of_nat (length arr) ->
  Js.with_ arr i v = Ok (<[Z.to_nat i := v]> arr).
Proof.
  intros Hi. unfold Js.with_.
  destruct (Z.ltb_spec i 0); [lia|].
  destruct (Z.ltb_spec i 0); [lia|].
  destruct (Z.leb_spec (Z.of_nat (length arr)) i); [lia|]. done.
Qed.

Lemma with_beyond {A} (arr : list A) (i : Z) (v : A) :
  Z.of_nat (length arr) <= i -> Js.with_ arr i v = Throw RangeError.
Proof.
  intros Hi. unfold Js.with_.
  destruct (Z.ltb_spec i 0); [lia|].
  destruct (Z.ltb_spec i 0); [lia|].
  destruct (Z.leb_spec (Z.of_nat (length arr)) i); [done|lia].
Qed.

End JsFacts.

(** * The click on a square, unfolded *)

(** What a click does when the render's current snapshot exists: either
    the early return, or the updater applied to the same state. *)
Lemma advanceMove_defined (state : GameState) (index : Z) (squares : Squares) :
  Js.get (history state) (currentStep state) = Some squares ->
  advanceMove state index =
    if truthy (calculateWinner squares) || truthy_cell (Js.get squares index)
    then Ok state
    else
      let* squares' := Js.with_ squares index (Some (calculateNextValue squares)) in
      Ok {| history := Js.slice (history state) 0 (currentStep state + 1) ++ [squares'];
            currentStep :=
              Z.of_nat (length (Js.slice (history state) 0 (currentStep state + 1))) |}.
Proof.
  intros Hcur.
  unfold advanceMove, selectSquare, winner, nextValue, currentSquares.
  rewrite Hcur. simpl.
  destruct (truthy (calculateWinner squares) || truthy_cell (Js.get squares index));
    simpl; [done|].
  rewrite Hcur. done.
Qed.

(** Without a current snapshot the render itself throws. *)
Lemma advanceMove_undefined (state : GameState) (index : Z) :
  Js.get (history state) (currentStep state) = None ->
  advanceMove state index = Throw TypeError.
Proof.
  intros Hcur. unfold advanceMove, selectSquare, winner, currentSquares.
  rewrite Hcur. done.
Qed.

(** An accepted move, with every array operation resolved. *)
Lemma advanceMove_accepted (state : GameState) (index : Z) (squares : Squares) :
  Js.get (history state) (currentStep state) = Some squares ->
  calculateWinner squares = None ->
  Js.get squares index = Some None ->
  advanceMove state index =
    Ok {| history :=
            take (S (Z.to_nat (currentStep state))) (history state)
              ++ [<[Z.to_nat index := Some (calculateNextValue squares)]> squares];
          currentStep := currentStep state + 1 |}.
Proof.
  intros Hcur Hwin Hcell.
  rewrite (advanceMove_defined _ _ _ Hcur), Hwin, Hcell. simpl.
  pose proof (JsFacts.get_lt _ _ _ Hcur) as Hcs.
  pose proof (JsFacts.get_lt _ _ _ Hcell) as Hidx.
  rewrite JsFacts.with_in_range by done. simpl.
  rewrite JsFacts.slice_upto by done.
  rewrite length_take. do 2 f_equal. lia.
Qed.

(** A refused click: a winner on the board or a marker on the square. *)
Lemma advanceMove_refused (state : GameState) (index : Z) (squares : Squares) :
  Js.get (history state) (currentStep state) = Some squares ->
  truthy (calculateWinner squares) || truthy_cell (Js.get squares index) = true ->
  advanceMove state index = Ok state.
Proof.
  intros Hcur Hguard. rewrite (advanceMove_defined _ _ _ Hcur), Hguard. done.
Qed.

(** The guard lets every index outside the board through, and
    [Array.prototype.with] then throws. *)
Lemma advanceMove_outside (state : GameState) (index : Z) (squares : Squares) :
  Js.get (history state) (currentStep state) = Some squares ->
  calculateWinner squares = None ->
  index < - Z.of_nat (length squares) \/ Z.of_nat (length squares) <= index ->
  advanceMove state index = Throw RangeError.
Proof.
  intros Hcur Hwin Hidx.
  rewrite (advanceMove_defined _ _ _ Hcur), Hwin.
  assert (Js.get squares index = None) as ->.
  { unfold Js.get. destruct (decide (0 <= index)); [|done].
    apply lookup_ge_None. lia. }
  simpl. unfold Js.with_.
  destruct (Z.ltb_spec index 0).
  - destruct (Z.ltb_spec (Z.of_nat (length squares) + index) 0); [done|lia].
  - destruct (Z.ltb_spec index 0); [lia|].
    destruct (Z.leb_spec (Z.of_nat (length squares)) index); [done|lia].
Qed.

(** * The move list *)

Lemma moves_lookup (state : GameState) (step : nat) :
  (step < length (history state))%nat ->
  exists button,
    moves state !! step = Some button /\
    disabled button = bool_decide (Z.of_nat step = currentStep state) /\
    forall previousState,
      onClick button previousState =
        {| history := history previousState; currentStep := Z.of_nat step |}.
Proof.
  intros Hstep. unfold moves. rewrite list_lookup_imap.
  destruct (lookup_lt_is_Some_2 _ _ Hstep) as [squares ->]. simpl.
  eexists. split; [done|]. simpl. split; done.
Qed.

Lemma jumpToStep_Some (state : GameState) (step : nat) (state' : GameState) :
  jumpToStep state step = Some state' <->
  (step < length (history state))%nat /\
  state' = {| history := history state; currentStep := Z.of_nat step |}.
Proof.
  unfold jumpToStep. split.
  - intros H. destruct (moves state !! step) as [button|] eqn:Hb; [|done].
    simpl in H. injection H as <-.
    assert (step < length (history state))%nat as Hstep.
    { apply lookup_lt_Some in Hb. unfold moves in Hb.
      by rewrite length_imap in Hb. }
    split; [done|].
    destruct (moves_lookup state step Hstep) as (b & Hb' & Hdis & Hclick).
    rewrite Hb in Hb'. injection Hb' as <-.
    rewrite Hdis. case_bool_decide as Hcur; [|apply Hclick].
    destruct state as [h c]. simpl in *. by subst.
  - intros [Hstep ->].
    destruct (moves_lookup state step Hstep) as (b & -> & Hdis & Hclick).
    simpl. rewrite Hdis. f_equal. case_bool_decide as Hcur; [|apply Hclick].
    destruct state as [h c]. simpl in *. by subst.
Qed.

(** * Properties of the JSON parser *)

Module JSONFacts.
Import JSON.

Lemma append_assoc (a b c : string) : ((a ++ b) ++ c = a ++ (b ++ c))%string.
Proof. induction a as [|x a IH]; simpl; [done|by rewrite IH]. Qed.

(** ** Every parser consumes part of its input *)

Lemma skip_ws_length (s : string) :
  (String.length (skip_ws s) <= String.length s)%nat.
Proof. induction s as [|c s IH]; simpl; [done|]. destruct (is_ws c); simpl; lia. Qed.

Lemma strip_length (literal s rest : string) :
  strip literal s = Some rest -> (String.length rest <= String.length s)%nat.
Proof.
  revert s. induction literal as [|a literal IH]; intros s H; simpl in H.
  - injection H as <-. done.
  - destruct s as [|b s]; [done|]. destruct (Ascii.eqb a b); [|done].
    apply IH in H. simpl. lia.
Qed.

Lemma parse_chars_length (s : string) (cs : list N) (rest : string) :
  parse_chars s = Some (cs, rest) -> (String.length rest < String.length s)%nat.
Proof.
  remember (String.length s) as n eqn:Hn.
  revert s cs rest Hn. induction (lt_wf n) as [n _ IH]. intros s cs rest -> H.
  destruct s as [|c s']; [done|]. cbn [parse_chars] in H.
  destruct (Ascii.eqb c "034").
  { injection H as _ <-. simpl. lia. }
  destruct (Ascii.eqb c "092").
  - destruct s' as [|e s'']; [done|].
    destruct (Ascii.eqb e "u").
    + destruct s'' as [|h1 [|h2 [|h3 [|h4 s4]]]]; try done.
      destruct (hex h1), (hex h2), (hex h3), (hex h4); try done.
      destruct (parse_chars s4) as [[cs' rest']|] eqn:Hrec; [|done].
      injection H as _ <-.
      pose proof (IH (String.length s4) ltac:(simpl; lia) _ _ _ eq_refl Hrec).
      simpl in *. lia.
    + destruct (escape e); [|done].
      destruct (parse_chars s'') as [[cs' rest']|] eqn:Hrec; [|done].
      injection H as _ <-.
      pose proof (IH (String.length s'') ltac:(simpl; lia) _ _ _ eq_refl Hrec).
      simpl in *. lia.
  - destruct (N_of_ascii c <? 32)%N; [done|].
    destruct (parse_chars s') as [[cs' rest']|] eqn:Hrec; [|done].
    injection H as _ <-.
    pose proof (IH (String.length s') ltac:(simpl; lia) _ _ _ eq_refl Hrec).
    simpl in *. lia.
Qed.

Lemma span_digits_length (s : string) (ds : list N) (rest : string) :
  span_digits s = (ds, rest) ->
  String.length s = (length ds + String.length rest)%nat.
Proof.
  revert ds rest. induction s as [|c s IH]; intros ds rest H; simpl in H.
  - by injection H as <- <-.
  - destruct (digit c).
    + destruct (span_digits s) as [ds' rest'] eqn:Hrec.
      injection H as <- <-. simpl. by rewrite (IH _ _ eq_refl).
    + by injection H as <- <-.
Qed.

Lemma sign_length (s : string) (negative : bool) (rest : string) :
  sign s = (negative, rest) -> (String.length rest <= String.length s)%nat.
Proof.
  destruct s as [|c s]; simpl; [by intros [= _ <-]|].
  destruct (Ascii.eqb c "-"); intros [= _ <-]; simpl; lia.
Qed.

Lemma fraction_length (s : string) (frac : list N) (rest : string) :
  fraction s = Some (frac, rest) -> (String.length rest <= String.length s)%nat.
Proof.
  destruct s as [|c s]; simpl; [by intros [= _ <-]|].
  destruct (Ascii.eqb c "."); [|by intros [= _ <-]].
  destruct (span_digits s) as [ds r] eqn:E. apply span_digits_length in E.
  destruct ds; [done|]. intros [= _ <-]. lia.
Qed.

Lemma exponent_length (s : string) (e : Z) (rest : string) :
  exponent s = Some (e, rest) -> (String.length rest <= String.length s)%nat.
Proof.
  destruct s as [|c s]; simpl; [by intros [= _ <-]|].
  destruct (Ascii.eqb c "e" || Ascii.eqb c "E"); [|by intros [= _ <-]].
  assert (forall (p : bool * string),
            (String.length p.2 <= String.length s)%nat ->
            (let '(negative, s'') := p in
             let '(ds, rest) := span_digits s'' in
             match ds with
             | [] => None
             | _ => Some (signed negative (digits_value ds), rest)
             end) = Some (e, rest) ->
            (String.length rest <= S (String.length s))%nat) as Hrest.
  { intros [negative s''] Hle. simpl in Hle.
    destruct (span_digits s'') as [ds r] eqn:E. apply span_digits_length in E.
    destruct ds; [done|]. intros [= _ <-]. lia. }
  apply Hrest. destruct s as [|c' s'']; simpl; [lia|].
  destruct (Ascii.eqb c' "-"); [simpl; lia|].
  destruct (Ascii.eqb c' "+"); simpl; lia.
Qed.

Lemma parse_number_length (s : string) (v : value) (rest : string) :
  parse_number s = Some (v, rest) -> (String.length rest < String.length s)%nat.
Proof.
  unfold parse_number.
  destruct (sign s) as [negative s1] eqn:Hsign. apply sign_length in Hsign.
  destruct (span_digits s1) as [int s2] eqn:Hint. apply span_digits_length in Hint.
  intros H.
  assert (int <> []) as Hne by (intros ->; done).
  assert (exists frac s3 e,
            fraction s2 = Some (frac, s3) /\ exponent s3 = Some (e, rest))
    as (frac & s3 & e & Hfrac & Hexp).
  { destruct int as [|d int]; [done|].
    destruct (fraction s2) as [[frac s3]|];
      [|by destruct d as [|?]; destruct int].
    destruct (exponent s3) as [[e s4]|] eqn:Hexp;
      [|by destruct d as [|?]; destruct int].
    exists frac, s3, e.
    by destruct d as [|?]; destruct int; try done; injection H as _ <-. }
  apply fraction_length in Hfrac. apply exponent_length in Hexp.
  destruct int; [done|]. simpl in Hint. lia.
Qed.

Lemma pmap_Parsed {A B} (f : A -> B) (p : parsed A) (b : B) (rest : string) :
  pmap f p = Parsed b rest -> exists a, p = Parsed a rest /\ b = f a.
Proof. destruct p; simpl; [|done..]. intros [= <- <-]. eauto. Qed.

Lemma pmap_fuel {A B} (f : A -> B) (p : parsed A) :
  pmap f p <> OutOfFuel <-> p <> OutOfFuel.
Proof. by destruct p. Qed.

Lemma of_option_Parsed {A} (o : option (A * string)) (a : A) (rest : string) :
  of_option o = Parsed a rest -> o = Some (a, rest).
Proof. destruct o as [[a' r]|]; simpl; [|done]. by intros [= <- <-]. Qed.

Lemma of_option_fuel {A} (o : option (A * string)) : of_option o <> OutOfFuel.
Proof. by destruct o as [[a r]|]. Qed.

Lemma value_step_shrinks elements members :
  shrinks elements -> shrinks members -> shrinks (value_step elements members).
Proof.
  intros Hel Hmem s v rest H. unfold value_step in H.
  pose proof (skip_ws_length s) as Hws.
  destruct (skip_ws s) as [|c s1]; [done|]. simpl in Hws.
  destruct (Ascii.eqb c "[").
  { pose proof (skip_ws_length s1) as Hws1.
    destruct (skip_ws s1) as [|c' s2]; [done|]. simpl in Hws1.
    destruct (Ascii.eqb c' "]"); [injection H as _ <-; lia|].
    apply pmap_Parsed in H as (vs & H & _). apply Hel in H. lia. }
  destruct (Ascii.eqb c "{").
  { pose proof (skip_ws_length s1) as Hws1.
    destruct (skip_ws s1) as [|c' s2]; [done|]. simpl in Hws1.
    destruct (Ascii.eqb c' "}"); [injection H as _ <-; lia|].
    apply pmap_Parsed in H as (vs & H & _). apply Hmem in H. lia. }
  destruct (Ascii.eqb c "034").
  { apply pmap_Parsed in H as (cs & H%of_option_Parsed & _).
    apply parse_chars_length in H. lia. }
  assert (forall literal (f : unit -> value),
            pmap f (of_option (pair tt <$> strip literal s1)) = Parsed v rest ->
            (String.length rest < String.length s)%nat) as Hliteral.
  { intros literal f (u & Hl%of_option_Parsed & _)%pmap_Parsed.
    destruct (strip literal s1) as [r|] eqn:Hstrip; [|done].
    injection Hl as _ <-. apply strip_length in Hstrip. lia. }
  destruct (Ascii.eqb c "n"); [by eapply Hliteral|].
  destruct (Ascii.eqb c "t"); [by eapply Hliteral|].
  destruct (Ascii.eqb c "f"); [by eapply Hliteral|].
  apply of_option_Parsed, parse_number_length in H. simpl in H. lia.
Qed.

Lemma elements_step_shrinks item elements :
  shrinks item -> shrinks elements -> shrinks (elements_step item elements).
Proof.
  intros Hit Hel s vs rest H. unfold elements_step in H.
  destruct (item s) as [v s1| |] eqn:Hv; [|done..]. apply Hit in Hv.
  pose proof (skip_ws_length s1) as Hws.
  destruct (skip_ws s1) as [|c s2]; [done|]. simpl in Hws.
  destruct (Ascii.eqb c ",").
  { apply pmap_Parsed in H as (vs' & H & _). apply Hel in H. lia. }
  destruct (Ascii.eqb c "]"); [|done]. injection H as _ <-. lia.
Qed.

Lemma members_step_shrinks item members :
  shrinks item -> shrinks members -> shrinks (members_step item members).
Proof.
  intros Hit Hmem s kvs rest H. unfold members_step in H.
  pose proof (skip_ws_length s) as Hws.
  destruct (skip_ws s) as [|q s1]; [done|]. simpl in Hws.
  destruct (Ascii.eqb q "034"); [|done].
  destruct (parse_chars s1) as [[k s2]|] eqn:Hk; [|done].
  apply parse_chars_length in Hk.
  pose proof (skip_ws_length s2) as Hws2.
  destruct (skip_ws s2) as [|c s3]; [done|]. simpl in Hws2.
  destruct (Ascii.eqb c ":"); [|done].
  destruct (item s3) as [v s4| |] eqn:Hv; [|done..]. apply Hit in Hv.
  pose proof (skip_ws_length s4) as Hws4.
  destruct (skip_ws s4) as [|c' s5]; [done|]. simpl in Hws4.
  destruct (Ascii.eqb c' ",").
  { apply pmap_Parsed in H as (kvs' & H & _). apply Hmem in H. lia. }
  destruct (Ascii.eqb c' "}"); [|done]. injection H as _ <-. lia.
Qed.

Lemma parse_shrinks (fuel : nat) :
  shrinks (parse_value fuel) /\ shrinks (parse_elements fuel)
  /\ shrinks (parse_members fuel).
Proof.
  induction fuel as [|fuel (IHv & IHe & IHm)]; [by repeat split|].
  repeat split; simpl.
  - by apply value_step_shrinks.
  - by apply elements_step_shrinks.
  - by apply members_step_shrinks.
Qed.

(** ** More fuel does not change an answer *)

Lemma extends_trans {A} (p q r : string -> parsed A) :
  extends p q -> extends q r -> extends p r.
Proof.
  intros Hpq Hqr s Hp. rewrite <- (Hpq s Hp). apply Hqr. by rewrite (Hpq s Hp).
Qed.

Lemma value_step_extends elements elements' members members' :
  extends elements elements' -> extends members members' ->
  extends (value_step elements members) (value_step elements' members').
Proof.
  intros Hel Hmem s H. unfold value_step in *.
  destruct (skip_ws s) as [|c s1]; [done|].
  destruct (Ascii.eqb c "[").
  { destruct (skip_ws s1) as [|c' s2]; [done|].
    destruct (Ascii.eqb c' "]"); [done|].
    apply pmap_fuel in H. by rewrite (Hel _ H). }
  destruct (Ascii.eqb c "{"); [|done].
  destruct (skip_ws s1) as [|c' s2]; [done|].
  destruct (Ascii.eqb c' "}"); [done|].
  apply pmap_fuel in H. by rewrite (Hmem _ H).
Qed.

Lemma elements_step_extends item item' elements elements' :
  extends item item' -> extends elements elements' ->
  extends (elements_step item elements) (elements_step item' elements').
Proof.
  intros Hit Hel s H. unfold elements_step in *.
  assert (item s <> OutOfFuel) as Hv by (by destruct (item s)).
  rewrite (Hit _ Hv). destruct (item s) as [v s1| |]; [|done..].
  destruct (skip_ws s1) as [|c s2]; [done|].
  destruct (Ascii.eqb c ","); [|done].
  apply pmap_fuel in H. by rewrite (Hel _ H).
Qed.

Lemma members_step_extends item item' members members' :
  extends item item' -> extends members members' ->
  extends (members_step item members) (members_step item' members').
Proof.
  intros Hit Hmem s H. unfold members_step in *.
  destruct (skip_ws s) as [|q s1]; [done|].
  destruct (Ascii.eqb q "034"); [|done].
  destruct (parse_chars s1) as [[k s2]|]; [|done].
  destruct (skip_ws s2) as [|c s3]; [done|].
  destruct (Ascii.eqb c ":"); [|done].
  assert (item s3 <> OutOfFuel) as Hv by (by destruct (item s3)).
  rewrite (Hit _ Hv). destruct (item s3) as [v s4| |]; [|done..].
  destruct (skip_ws s4) as [|c' s5]; [done|].
  destruct (Ascii.eqb c' ","); [|done].
  apply pmap_fuel in H. by rewrite (Hmem _ H).
Qed.

Lemma parse_extends_S (fuel : nat) :
  extends (parse_value fuel) (parse_value (S fuel))
  /\ extends (parse_elements fuel) (parse_elements (S fuel))
  /\ extends (parse_members fuel) (parse_members (S fuel)).
Proof.
  induction fuel as [|fuel (IHv & IHe & IHm)];
    [repeat split; intros s H; by destruct H|].
  repeat split.
  - by apply (value_step_extends _ _ _ _ IHe IHm).
  - by apply (elements_step_extends _ _ _ _ IHv IHe).
  - by apply (members_step_extends _ _ _ _ IHv IHm).
Qed.

Lemma parse_value_extends (fuel fuel' : nat) :
  (fuel <= fuel')%nat -> extends (parse_value fuel) (parse_value fuel').
Proof.
  induction 1 as [|fuel' _ IH]; [by intros s _|].
  eapply extends_trans; [exact IH|]. apply parse_extends_S.
Qed.

(** ** The budget of [parse] is never exhausted *)

Lemma value_step_fuel elements members (s : string) :
  (forall s', (String.length s' < String.length s)%nat -> elements s' <> OutOfFuel) ->
  (forall s', (String.length s' < String.length s)%nat -> members s' <> OutOfFuel) ->
  value_step elements members s <> OutOfFuel.
Proof.
  intros Hel Hmem. unfold value_step.
  pose proof (skip_ws_length s) as Hws.
  destruct (skip_ws s) as [|c s1]; [done|]. simpl in Hws.
  destruct (Ascii.eqb c "[").
  { destruct (skip_ws s1) as [|c' s2]; [done|].
    destruct (Ascii.eqb c' "]"); [done|]. apply pmap_fuel, Hel. lia. }
  destruct (Ascii.eqb c "{").
  { destruct (skip_ws s1) as [|c' s2]; [done|].
    destruct (Ascii.eqb c' "}"); [done|]. apply pmap_fuel, Hmem. lia. }
  repeat (match goal with |- context [if ?b then _ else _] => destruct b end;
          [apply pmap_fuel, of_option_fuel|]).
  apply of_option_fuel.
Qed.

Lemma elements_step_fuel item elements (s : string) :
  shrinks item ->
  item s <> OutOfFuel ->
  (forall s', (String.length s' < String.length s)%nat -> elements s' <> OutOfFuel) ->
  elements_step item elements s <> OutOfFuel.
Proof.
  intros Hshr Hit Hel. unfold elements_step.
  destruct (item s) as [v s1| |] eqn:Hv; [|done..]. apply Hshr in Hv.
  pose proof (skip_ws_length s1) as Hws.
  destruct (skip_ws s1) as [|c s2]; [done|]. simpl in Hws.
  destruct (Ascii.eqb c ","); [apply pmap_fuel, Hel; lia|].
  by destruct (Ascii.eqb c "]").
Qed.

Lemma members_step_fuel item members (s : string) :
  shrinks item ->
  (forall s', (String.length s' < String.length s)%nat -> item s' <> OutOfFuel) ->
  (forall s', (String.length s' < String.length s)%nat -> members s' <> OutOfFuel) ->
  members_step item members s <> OutOfFuel.
Proof.
  intros Hshr Hit Hmem. unfold members_step.
  pose proof (skip_ws_length s) as Hws.
  destruct (skip_ws s) as [|q s1]; [done|]. simpl in Hws.
  destruct (Ascii.eqb q "034"); [|done].
  destruct (parse_chars s1) as [[k s2]|] eqn:Hk; [|done].
  apply parse_chars_length in Hk.
  pose proof (skip_ws_length s2) as Hws2.
  destruct (skip_ws s2) as [|c s3]; [done|]. simpl in Hws2.
  destruct (Ascii.eqb c ":"); [|done].
  assert (item s3 <> OutOfFuel) as Hv3 by (apply Hit; lia).
  destruct (item s3) as [v s4| |] eqn:Hv; [|done..]. apply Hshr in Hv.
  pose proof (skip_ws_length s4) as Hws4.
  destruct (skip_ws s4) as [|c' s5]; [done|]. simpl in Hws4.
  destruct (Ascii.eqb c' ","); [apply pmap_fuel, Hmem; lia|].
  by destruct (Ascii.eqb c' "}").
Qed.

Lemma parse_fuel (fuel : nat) :
  (forall s, (2 * String.length s + 1 <= fuel)%nat -> parse_value fuel s <> OutOfFuel)
  /\ (forall s, (2 * String.length s + 2 <= fuel)%nat ->
                parse_elements fuel s <> OutOfFuel)
  /\ (forall s, (2 * String.length s + 2 <= fuel)%nat ->
                parse_members fuel s <> OutOfFuel).
Proof.
  induction fuel as [|fuel (IHv & IHe & IHm)]; [repeat split; intros; lia|].
  destruct (parse_shrinks fuel) as (Hshr & _ & _).
  repeat split; intros s Hs; cbn [parse_value parse_elements parse_members].
  - apply value_step_fuel; intros s' Hs'; [apply IHe|apply IHm]; lia.
  - apply elements_step_fuel; [done|apply IHv; lia|].
    intros s' Hs'. apply IHe. lia.
  - apply members_step_fuel; [done|..]; intros s' Hs'; [apply IHv|apply IHm]; lia.
Qed.

(** [JSON.parse] never fails for want of fuel. *)
Lemma parse_value_fuel (text : string) :
  parse_value (budget text) text <> OutOfFuel.
Proof. apply parse_fuel. unfold budget. lia. Qed.

(** What the descent finds with some fuel is what [JSON.parse] finds. *)
Lemma parse_value_budget (fuel : nat) (text : string) (v : value) (rest : string) :
  parse_value fuel text = Parsed v rest ->
  parse_value (budget text) text = Parsed v rest.
Proof.
  intros H. destruct (Nat.le_ge_cases fuel (budget text)) as [Hle|Hge].
  - rewrite <- H. apply (parse_value_extends _ _ Hle). by rewrite H.
  - rewrite <- H. symmetry.
    apply (parse_value_extends _ _ Hge), parse_value_fuel.
Qed.

Lemma parse_complete (fuel : nat) (text : string) (v : value) (rest : string) :
  parse_value fuel text = Parsed v rest ->
  skip_ws rest = EmptyString ->
  parse text = Ok v.
Proof.
  intros H Hrest. unfold parse. by rewrite (parse_value_budget _ _ _ _ H), Hrest.
Qed.

(** ** Strings without escapes *)

Lemma parse_chars_plain (literal rest : string) :
  forallb plain (list_ascii_of_string literal) = true ->
  parse_chars (literal ++ String "034" rest) = Some (codes literal, rest).
Proof.
  induction literal as [|c literal IH]; [done|].
  cbn [list_ascii_of_string forallb]. intros [Hc Hrest]%andb_true_iff.
  unfold plain in Hc. apply andb_true_iff in Hc as [[Hq Hb]%andb_true_iff Hctl].
  apply negb_true_iff in Hq, Hb, Hctl.
  cbn [String.append parse_chars]. rewrite Hq, Hb, Hctl, (IH Hrest). done.
Qed.

(** ** Numbers: what [decimal] writes, [parse_number] reads *)

Lemma digit_digit_char (d : N) : (d < 10)%N -> digit (digit_char d) = Some d.
Proof.
  intros Hd. unfold digit, digit_char.
  rewrite N_ascii_embedding by lia.
  destruct (N.leb_spec 48 (48 + d)); [|lia].
  destruct (N.leb_spec (48 + d) 57); [|lia].
  simpl. f_equal. lia.
Qed.

Lemma span_digits_decimal_fuel (fuel : nat) (n : N) (rest : string) :
  span_digits (decimal_fuel fuel n ++ rest) =
    (digits_fuel fuel n ++ (span_digits rest).1, (span_digits rest).2).
Proof.
  revert n rest. induction fuel as [|fuel IH]; intros n rest; simpl.
  { by destruct (span_digits rest). }
  destruct (N.ltb_spec n 10) as [Hn|Hn].
  - simpl. rewrite digit_digit_char by done. by destruct (span_digits rest).
  - rewrite append_assoc, IH. simpl.
    rewrite digit_digit_char by (apply N.mod_lt; lia).
    destruct (span_digits rest). simpl. by rewrite <- app_assoc.
Qed.

Lemma digits_fuel_value (fuel : nat) (n : N) :
  (n < 2 ^ N.of_nat fuel)%N ->
  fold_left (fun acc d => (10 * acc + d)%N) (digits_fuel fuel n) 0%N = n.
Proof.
  revert n. induction fuel as [|fuel IH]; intros n Hn.
  { simpl in *. lia. }
  cbn [digits_fuel]. destruct (N.ltb_spec n 10) as [Hlt|Hge]; [simpl; lia|].
  rewrite fold_left_app. cbn [fold_left]. rewrite IH.
  - pose proof (N.div_mod n 10). lia.
  - rewrite Nat2N.inj_succ, N.pow_succ_r' in Hn.
    apply N.Div0.div_lt_upper_bound; lia.
Qed.

(** No superfluous leading zero is written. *)
Lemma digits_fuel_head (fuel : nat) (n : N) :
  (n < 2 ^ N.of_nat (S fuel))%N ->
  n = 0%N /\ digits_fuel (S fuel) n = [0%N] \/
  exists d ds, digits_fuel (S fuel) n = d :: ds /\ d <> 0%N.
Proof.
  revert n. induction fuel as [|fuel IH]; intros n Hn.
  { cbn [digits_fuel]. change (2 ^ N.of_nat 1)%N with 2%N in Hn.
    destruct (N.ltb_spec n 10); [|lia].
    destruct (decide (n = 0%N)) as [->|Hne]; [by left|]. right. by exists n, []. }
  cbn [digits_fuel]. destruct (N.ltb_spec n 10) as [Hlt|Hge].
  - destruct (decide (n = 0%N)) as [->|Hne]; [by left|]. right. by exists n, [].
  - right.
    assert (n / 10 < 2 ^ N.of_nat (S fuel))%N as Hdiv.
    { rewrite Nat2N.inj_succ, N.pow_succ_r' in Hn.
      apply N.Div0.div_lt_upper_bound; lia. }
    destruct (IH (n / 10)%N Hdiv) as [[H0 _]|(d & ds & Hds & Hd)].
    + exfalso. pose proof (N.div_mod n 10). pose proof (N.mod_lt n 10). lia.
    + cbn [digits_fuel] in Hds. rewrite Hds. by exists d, (ds ++ [(n mod 10)%N]).
Qed.

Lemma decimal_fuel_head (fuel : nat) (n : N) :
  fuel <> 0%nat ->
  exists d tail, decimal_fuel fuel n = String (digit_char d) tail /\ (d < 10)%N.
Proof.
  revert n. induction fuel as [|fuel IH]; intros n Hfuel; [done|].
  cbn [decimal_fuel]. destruct (N.ltb_spec n 10) as [Hlt|Hge]; [by eexists _, _|].
  destruct fuel as [|fuel].
  - simpl. eexists _, _. split; [done|]. apply N.mod_lt. lia.
  - destruct (IH (n / 10)%N) as (d & tail & -> & Hd); [done|].
    simpl. by eexists _, _.
Qed.

Lemma log2_fuel (n : N) : (n < 2 ^ N.of_nat (S (N.to_nat (N.log2 n))))%N.
Proof.
  rewrite Nat2N.inj_succ, N2Nat.id.
  destruct (decide (n = 0%N)) as [->|Hne]; [done|].
  apply N.log2_spec. lia.
Qed.

Lemma parse_number_decimal (n : Z) (c : ascii) (rest : string) :
  ends_number c ->
  parse_number (decimal_Z n ++ String c rest) = Some (JNumber n, String c rest).
Proof.
  intros (Hdigit & Hpoint & He & HE).
  pose proof (log2_fuel (Z.abs_N n)) as Hfuel.
  assert (span_digits (decimal (Z.abs_N n) ++ String c rest)
          = (digits_fuel (S (N.to_nat (N.log2 (Z.abs_N n)))) (Z.abs_N n),
             String c rest)) as Hspan.
  { unfold decimal. rewrite span_digits_decimal_fuel.
    cbn [span_digits]. rewrite Hdigit. simpl. by rewrite app_nil_r. }
  pose proof (digits_fuel_value _ _ Hfuel) as Hvalue.
  assert (sign (decimal_Z n ++ String c rest)
          = (n <? 0, (decimal (Z.abs_N n) ++ String c rest)%string)) as Hsign.
  { unfold decimal_Z. destruct (n <? 0); [done|].
    destruct (decimal_fuel_head (S (N.to_nat (N.log2 (Z.abs_N n)))) (Z.abs_N n))
      as (d & tail & Hd & Hlt); [done|].
    unfold decimal. rewrite Hd. simpl.
    destruct (Ascii.eqb_spec (digit_char d) "-") as [Heq|]; [|done].
    pose proof (digit_digit_char d Hlt) as Hdig. by rewrite Heq in Hdig. }
  unfold parse_number. rewrite Hsign, Hspan.
  assert (fraction (String c rest) = Some ([], String c rest)) as Hfrac.
  { unfold fraction. by rewrite Hpoint. }
  assert (exponent (String c rest) = Some (0, String c rest)) as Hexp.
  { unfold exponent. by rewrite He, HE. }
  assert (forall ds : list N,
            ds = digits_fuel (S (N.to_nat (N.log2 (Z.abs_N n)))) (Z.abs_N n) ->
            scaled (signed (n <? 0) (digits_value (ds ++ []))) (0 - Z.of_nat 0)
            = JNumber n) as Hscaled.
  { intros ds ->. rewrite app_nil_r. unfold digits_value. rewrite Hvalue.
    unfold scaled, signed. simpl. f_equal.
    destruct (Z.ltb_spec n 0); lia. }
  destruct (digits_fuel_head _ _ Hfuel) as [[_ H0]|(d & ds & Hd & Hne)].
  - rewrite H0, Hfrac, Hexp. do 2 f_equal. apply Hscaled. by rewrite H0.
  - rewrite Hd, Hfrac, Hexp.
    assert (Some (scaled (signed (n <? 0) (digits_value ((d :: ds) ++ [])))
                         (0 - Z.of_nat (length (@nil N))), String c rest)
            = Some (JNumber n, String c rest)) as Hres.
    { do 2 f_equal. apply Hscaled. by rewrite Hd. }
    destruct d as [|p]; [done|]. by destruct ds.
Qed.

(** A number literal starts with a minus sign or a digit. *)
Lemma decimal_Z_head (n : Z) :
  exists c tail,
    decimal_Z n = String c tail /\ (c = "-"%char \/ is_Some (digit c)).
Proof.
  unfold decimal_Z. destruct (n <? 0); [by eexists _, _; split; [|left]|].
  destruct (decimal_fuel_head (S (N.to_nat (N.log2 (Z.abs_N n)))) (Z.abs_N n))
    as (d & tail & Hd & Hlt); [done|].
  unfold decimal. rewrite Hd. eexists _, _. split; [done|]. right.
  by rewrite digit_digit_char.
Qed.

End JSONFacts.

(** * Reading back a persisted state *)

Module Roundtrip.
Import JSON JSONFacts.

Lemma reads_back_mono (need need' : nat) (v : value) :
  (need <= need')%nat -> reads_back need v -> reads_back need' v.
Proof.
  intros Hle [Hparse Hhead]. split; [|done].
  intros fuel rest Hfuel. apply Hparse. lia.
Qed.

Lemma concat_cons (sep x : string) (y : string) (l : list string) :
  String.concat sep (x :: y :: l) = (x ++ sep ++ String.concat sep (y :: l))%string.
Proof. done. Qed.

(** The elements of an array whose elements all read back. *)
Lemma parse_elements_reads_back (need : nat) (v : value) (vs : list value) :
  Forall (reads_back need) (v :: vs) ->
  forall fuel rest,
    (need + S (length vs) <= fuel)%nat ->
    parse_elements fuel
      (String.concat "," (map stringify (v :: vs)) ++ String "]" rest)
    = Parsed (v :: vs) rest.
Proof.
  revert v. induction vs as [|w vs IH]; intros v Hall fuel rest Hfuel.
  - apply Forall_cons in Hall as [[Hv _] _].
    destruct fuel as [|fuel]; [simpl in Hfuel; lia|].
    cbn [parse_elements map String.concat]. unfold elements_step.
    rewrite Hv by (simpl in Hfuel; lia). done.
  - apply Forall_cons in Hall as [[Hv _] Hall].
    destruct fuel as [|fuel]; [simpl in Hfuel; lia|].
    cbn [map]. rewrite concat_cons, !append_assoc.
    cbn [parse_elements]. unfold elements_step.
    rewrite Hv by (simpl in Hfuel; lia).
    change ("," ++ ?s)%string with (String "," s).
    cbn [skip_ws is_ws Ascii.eqb Bool.eqb orb].
    change (map stringify (w :: vs)) with (stringify w :: map stringify vs) in *.
    rewrite (IH w Hall) by (simpl in *; lia). done.
Qed.

(** An array whose elements all read back reads back. *)
Lemma array_reads_back (need : nat) (vs : list value) :
  Forall (reads_back need) vs ->
  reads_back (need + S (S (length vs))) (JArray vs).
Proof.
  intros Hall. split; [|by eexists _, _].
  intros fuel rest Hfuel.
  destruct fuel as [|fuel]; [lia|].
  destruct vs as [|v vs]; [done|].
  cbn [stringify]. rewrite !append_assoc.
  change ("[" ++ ?s)%string with (String "[" s).
  change ("]" ++ ?s)%string with (String "]" s).
  cbn [parse_value]. unfold value_step.
  cbn [skip_ws is_ws Ascii.eqb Bool.eqb orb].
  pose proof Hall as [(_ & c & tail & Hhead & Hws & Hclose) _]%Forall_cons.
  assert (exists tail',
            (String.concat "," (map stringify (v :: vs)) ++ String "]" rest)%string
            = String c tail') as [tail' Htail].
  { destruct vs; cbn [map String.concat]; rewrite Hhead; by eexists. }
  rewrite (parse_elements_reads_back need v vs Hall) by (simpl in *; lia).
  rewrite Htail. cbn [skip_ws]. by rewrite Hws, Hclose.
Qed.

(** ** The JSON text of a game state *)

Lemma square_reads_back (c : option Player) : reads_back 1 (square_toJSON c).
Proof.
  split.
  - intros [|fuel] rest Hfuel; [lia|]. by destruct c as [[]|].
  - destruct c as [[]|]; by eexists _, _.
Qed.

Lemma squares_reads_back (squares : Squares) :
  reads_back (3 + length squares) (squares_toJSON squares).
Proof.
  unfold squares_toJSON.
  eapply reads_back_mono; [|apply (array_reads_back 1)].
  - rewrite length_map. lia.
  - apply Forall_fmap, Forall_forall. intros c _. apply square_reads_back.
Qed.

Lemma history_reads_back (snapshots : list Squares) :
  reads_back (snapshot_fuel snapshots + S (S (length snapshots)))
             (JArray (map squares_toJSON snapshots)).
Proof.
  eapply reads_back_mono; [|apply (array_reads_back (snapshot_fuel snapshots))].
  - by rewrite length_map.
  - apply Forall_fmap, Forall_forall. intros squares Hin.
    eapply reads_back_mono; [|apply squares_reads_back].
    unfold snapshot_fuel.
    assert (length squares <= max_list (map length snapshots))%nat; [|lia].
    apply max_list_elem_of_le, list_elem_of_fmap. eauto.
Qed.

(** A number, where a value is expected and a closing brace follows. *)
Lemma number_reads_back elements members (n : Z) (rest : string) :
  value_step elements members (decimal_Z n ++ String "}" rest)
  = Parsed (JNumber n) (String "}" rest).
Proof.
  pose proof (parse_number_decimal n "}" rest) as Hnum.
  destruct (decimal_Z_head n) as (c & tail & Hhead & Hc).
  rewrite Hhead in *. unfold value_step.
  assert (is_ws c = false /\ Ascii.eqb c "[" = false /\ Ascii.eqb c "{" = false
          /\ Ascii.eqb c "034" = false /\ Ascii.eqb c "n" = false
          /\ Ascii.eqb c "t" = false /\ Ascii.eqb c "f" = false)
    as (Hws & H1 & H2 & H3 & H4 & H5 & H6).
  { destruct Hc as [->|[d Hd]]; [done|].
    unfold is_ws.
    repeat match goal with
    | |- context [Ascii.eqb c ?x] =>
        destruct (Ascii.eqb_spec c x) as [->|]; [done|]
    end. done. }
  cbn [String.append skip_ws]. rewrite Hws, H1, H2, H3, H4, H5, H6.
  cbn [String.append] in Hnum. by rewrite Hnum.
Qed.

(** The text written to [localStorage], spelled out. *)
Lemma persist_text (state : GameState) :
  persist state =
    String "{" (String "034" ("history" ++ String "034" (String ":"
      (stringify (JArray (map squares_toJSON (history state)))
       ++ String "," (String "034" ("currentStep" ++ String "034" (String ":"
            (decimal_Z (currentStep state) ++ String "}" EmptyString))))))))%string.
Proof.
  unfold persist, toJSON.
  remember (JArray (map squares_toJSON (history state))) as h.
  cbn [stringify map fst snd String.concat].
  change (quote (codes "history")) with (String "034" ("history" ++ String "034" EmptyString))%string.
  change (quote (codes "currentStep"))
    with (String "034" ("currentStep" ++ String "034" EmptyString))%string.
  rewrite !append_assoc. done.
Qed.

(** The descent reads back the text of a state, given fuel enough. *)
Lemma parse_value_persist (state : GameState) (fuel : nat) :
  (snapshot_fuel (history state) + length (history state) + 5 <= fuel)%nat ->
  parse_value fuel (persist state) = Parsed (toJSON state) EmptyString.
Proof.
  intros Hfuel.
  destruct fuel as [|[|[|fuel]]]; [lia..|].
  destruct (history_reads_back (history state)) as [Hhistory _].
  rewrite persist_text. unfold toJSON.
  remember (JArray (map squares_toJSON (history state))) as h.
  cbn [parse_value]. unfold value_step at 1.
  cbn [skip_ws is_ws Ascii.eqb Bool.eqb orb].
  cbn [parse_members]. unfold members_step at 1.
  cbn [skip_ws is_ws Ascii.eqb Bool.eqb orb].
  rewrite (parse_chars_plain "history") by done.
  cbn [skip_ws is_ws Ascii.eqb Bool.eqb orb].
  rewrite Hhistory by lia.
  cbn [skip_ws is_ws Ascii.eqb Bool.eqb orb].
  unfold members_step at 1.
  cbn [skip_ws is_ws Ascii.eqb Bool.eqb orb].
  rewrite (parse_chars_plain "currentStep") by done.
  cbn [skip_ws is_ws Ascii.eqb Bool.eqb orb].
  destruct fuel as [|fuel]; [lia|].
  cbn [parse_value]. rewrite number_reads_back.
  cbn [skip_ws is_ws Ascii.eqb Bool.eqb orb pmap].
  done.
Qed.
(** [JSON.parse(JSON.stringify(state))] is the state, as a JSON value. *)
Lemma parse_persist (state : GameState) :
  JSON.parse (persist state) = Ok (toJSON state).
Proof.
  by apply (parse_complete _ _ _ _ (parse_value_persist state _ (Nat.le_refl _))).
Qed.

(** ** Validation *)

Lemma isSquare_toJSON (c : option Player) : isSquare (square_toJSON c) = Some c.
Proof. by destruct c as [[]|]. Qed.

Lemma isSquares_toJSON (squares : Squares) :
  length squares = 9%nat -> isSquares (squares_toJSON squares) = Some squares.
Proof.
  intros Hlen. unfold isSquares, squares_toJSON.
  rewrite (mapM_fmap_Some _ _ _ isSquare_toJSON). simpl.
  by destruct (decide (length squares = 9%nat)).
Qed.

Lemma isSquares_length (v : value) (squares : Squares) :
  isSquares v = Some squares -> length squares = 9%nat.
Proof.
  destruct v; try done. simpl.
  destruct (mapM isSquare elements) as [sq|]; [|done]. simpl.
  destruct (decide (length sq = 9%nat)); [|done]. by intros [= <-].
Qed.

(** A state is accepted exactly when it meets the data model. *)
Lemma isValidGameState_toJSON (state : GameState) :
  cursor_in_range state -> nine_cells state ->
  isValidGameState (toJSON state) = Some state.
Proof.
  intros Hcs Hnine. destruct state as [h cs].
  unfold cursor_in_range, nine_cells in *. simpl in *.
  unfold isValidGameState, toJSON. simpl.
  rewrite (mapM_fmap_Forall_Some _ squares_toJSON).
  - simpl. destruct (decide _) as [|Hno]; [done|].
    destruct Hno. split; [|done]. intros ->. simpl in Hcs. lia.
  - eapply Forall_impl; [exact Hnine|]. intros sq Hsq. by apply isSquares_toJSON.
Qed.

Lemma isValidGameState_Some (candidate : value) (state : GameState) :
  isValidGameState candidate = Some state ->
  history state <> [] /\ cursor_in_range state /\ nine_cells state.
Proof.
  unfold isValidGameState. intros H.
  destruct candidate as [| | | | | |properties]; try done.
  destruct (prop (codes "history") properties) as [[| | | | |snapshots|]|];
    try done.
  destruct (prop (codes "currentStep") properties) as [[| |step| | | |]|];
    try done.
  destruct (mapM isSquares snapshots) as [h|] eqn:Hh; [|done]. simpl in H.
  destruct (decide _) as [[Hne Hcs]|]; [|done]. injection H as <-.
  repeat split; simpl; try done; try lia.
  unfold nine_cells. simpl. apply mapM_Some_1 in Hh.
  apply Forall_forall. intros sq Hin.
  apply list_elem_of_lookup in Hin as [i Hi].
  destruct (Forall2_lookup_r _ _ _ _ _ Hh Hi) as (v & _ & Hv).
  by apply isSquares_length in Hv.
Qed.

End Roundtrip.

(** * Invariants of the state *)

(** The two outcomes of a click that does not throw. *)
Lemma advanceMove_Ok (state : GameState) (index : Z) (state' : GameState) :
  advanceMove state index = Ok state' ->
  state' = state \/
  exists squares squares',
    Js.get (history state) (currentStep state) = Some squares /\
    calculateWinner squares = None /\
    truthy_cell (Js.get squares index) = false /\
    Js.with_ squares index (Some (calculateNextValue squares)) = Ok squares' /\
    state' = {| history :=
                  take (S (Z.to_nat (currentStep state))) (history state) ++ [squares'];
                currentStep := currentStep state + 1 |}.
Proof.
  intros H.
  destruct (Js.get (history state) (currentStep state)) as [squares|] eqn:Hcur;
    [|by rewrite advanceMove_undefined in H].
  rewrite (advanceMove_defined _ _ _ Hcur) in H.
  pose proof (JsFacts.get_lt _ _ _ Hcur) as Hcs.
  destruct (calculateWinner squares) as [p|] eqn:Hwin; simpl in H;
    [left; by injection H as <-|].
  destruct (truthy_cell (Js.get squares index)) eqn:Hcell; simpl in H;
    [left; by injection H as <-|].
  right.
  destruct (Js.with_ squares index (Some (calculateNextValue squares)))
    as [squares'|] eqn:Hwith; [|done].
  simpl in H. injection H as <-. exists squares, squares'.
  repeat split; try done.
  rewrite JsFacts.slice_upto by done. rewrite length_take. do 2 f_equal. lia.
Qed.

Lemma with_length {A} (arr arr' : list A) (index : Z) (v : A) :
  Js.with_ arr index v = Ok arr' -> length arr' = length arr.
Proof.
  unfold Js.with_. destruct (_ || _); [done|]. intros [= <-]. apply length_insert.
Qed.

Lemma defaultState_well_formed : well_formed defaultState.
Proof. split; [done|]. unfold cursor_in_range. simpl. lia. Qed.

Lemma defaultState_nine_cells : nine_cells defaultState.
Proof. unfold nine_cells. simpl. by repeat constructor. Qed.

(** The initial state is the default state or a candidate that
    [isValidGameState] accepted. *)
Lemma initialState_cases (item : option string) :
  initialState item = defaultState \/
  exists candidate, isValidGameState candidate = Some (initialState item).
Proof.
  unfold initialState. destruct (JSON.parse _) as [v|e]; [|by left].
  destruct (isValidGameState v) as [state|] eqn:Hvalid; [|by left].
  right. by exists v.
Qed.

Lemma initialState_well_formed (item : option string) :
  well_formed (initialState item) /\ nine_cells (initialState item).
Proof.
  destruct (initialState_cases item) as [->|[v Hv]].
  - split; [apply defaultState_well_formed|apply defaultState_nine_cells].
  - apply Roundtrip.isValidGameState_Some in Hv as (Hne & Hcs & Hnine).
    by split; [split|].
Qed.

Lemma advanceMove_well_formed (state : GameState) (index : Z) (state' : GameState) :
  well_formed state -> advanceMove state index = Ok state' -> well_formed state'.
Proof.
  intros Hwf [->|(squares & squares' & Hcur & _ & _ & _ & ->)]%advanceMove_Ok;
    [done|].
  pose proof (JsFacts.get_lt _ _ _ Hcur) as Hcs.
  split; cbn [history currentStep].
  - intros Hnil. apply (f_equal length) in Hnil.
    rewrite length_app in Hnil. cbn [length] in Hnil. lia.
  - unfold cursor_in_range. cbn [history currentStep].
    rewrite length_app, length_take. cbn [length]. lia.
Qed.

Lemma advanceMove_nine_cells (state : GameState) (index : Z) (state' : GameState) :
  nine_cells state -> advanceMove state index = Ok state' -> nine_cells state'.
Proof.
  intros Hnine [->|(squares & squares' & Hcur & _ & _ & Hwith & ->)]%advanceMove_Ok;
    [done|].
  unfold nine_cells in *. simpl. apply Forall_app. split.
  - by apply Forall_take.
  - apply Forall_singleton. rewrite (with_length _ _ _ _ Hwith).
    apply JsFacts.get_Some in Hcur as [_ Hcur].
    rewrite Forall_lookup in Hnine. eauto.
Qed.

Lemma jumpToStep_well_formed (state : GameState) (step : nat) (state' : GameState) :
  well_formed state -> jumpToStep state step = Some state' -> well_formed state'.
Proof.
  intros [Hne _] [Hstep ->]%jumpToStep_Some. split; [done|].
  unfold cursor_in_range. simpl. lia.
Qed.

Lemma event_well_formed (state state' : GameState) :
  event state state' ->
  well_formed state /\ nine_cells state ->
  well_formed state' /\ nine_cells state'.
Proof.
  intros [s squares button s' _ _ Hmove|s step s' Hjump|s] [Hwf Hnine].
  - split; [by eapply advanceMove_well_formed|by eapply advanceMove_nine_cells].
  - split; [by eapply jumpToStep_well_formed|].
    apply jumpToStep_Some in Hjump as [_ ->]. done.
  - split; [apply defaultState_well_formed|apply defaultState_nine_cells].
Qed.

Lemma reachable_well_formed (state : GameState) :
  reachable state -> well_formed state /\ nine_cells state.
Proof.
  intros [item Hrun]. revert state Hrun.
  apply (rtc_ind_r (fun s => well_formed s /\ nine_cells s) (initialState item));
    [apply initialState_well_formed|].
  intros s1 s2 _ Hev IH. by eapply event_well_formed.
Qed.

(** ** One move per snapshot *)

(** The squares of the board are the indices 0 to 8. *)
Lemma board_square (state : GameState) (squares : list SquareButton)
    (button : SquareButton) :
  board state = Ok squares -> button ∈ squares -> 0 <= square button < 9.
Proof.
  unfold board. destruct (currentSquares state) as [sq|]; [|done]. simpl.
  intros [= <-]. unfold Board.
  intros (i & -> & Hi)%list_elem_of_fmap. simpl.
  repeat (apply elem_of_cons in Hi as [->|Hi]; [lia|]).
  by apply elem_of_nil in Hi.
Qed.

Lemma move_by_move_snoc (snapshots : list Squares) (n : nat)
    (before after : Squares) :
  move_by_move snapshots ->
  snapshots !! n = Some before ->
  one_move before after ->
  move_by_move (take (S n) snapshots ++ [after]).
Proof.
  intros Hall Hn Hmove i a b Ha Hb.
  pose proof (lookup_lt_Some _ _ _ Hn) as Hlt.
  assert (length (take (S n) snapshots) = S n) as Hlen by (rewrite length_take; lia).
  destruct (decide (i < n)%nat) as [Hi|Hi].
  - rewrite lookup_app_l in Ha, Hb by lia.
    rewrite lookup_take_lt in Ha, Hb by lia. by eapply Hall.
  - assert (i = n) as ->.
    { apply lookup_lt_Some in Hb. rewrite length_app, Hlen in Hb. simpl in Hb. lia. }
    rewrite lookup_app_l in Ha by lia. rewrite lookup_take_lt in Ha by lia.
    rewrite lookup_app_r in Hb by lia. rewrite Hlen, Nat.sub_diag in Hb.
    simpl in Hb. injection Hb as <-. rewrite Hn in Ha. by injection Ha as <-.
Qed.

Lemma advanceMove_move_by_move (state : GameState) (index : Z) (state' : GameState) :
  0 <= index ->
  move_by_move (history state) ->
  advanceMove state index = Ok state' ->
  move_by_move (history state').
Proof.
  intros Hidx Hall
    [->|(squares & squares' & Hcur & _ & Hcell & Hwith & ->)]%advanceMove_Ok;
    [done|].
  simpl. apply JsFacts.get_Some in Hcur as [Hcs Hcur].
  apply (move_by_move_snoc _ _ squares); [done..|].
  destruct (decide (index < Z.of_nat (length squares))) as [Hin|Hout].
  - rewrite JsFacts.with_in_range in Hwith by lia. injection Hwith as <-.
    exists (Z.to_nat index), (calculateNextValue squares). split; [|done].
    destruct (JsFacts.get_in_range squares index) as [[p|] Hget]; [lia|..].
    + by rewrite Hget in Hcell.
    + by apply JsFacts.get_Some in Hget as [_ Hget].
  - by rewrite JsFacts.with_beyond in Hwith by lia.
Qed.

Lemma event_move_by_move (state state' : GameState) :
  event state state' ->
  move_by_move (history state) -> move_by_move (history state').
Proof.
  intros [s squares button s' Hboard Hin Hmove|s step s' Hjump|s] Hall.
  - eapply advanceMove_move_by_move; [|done..].
    by destruct (board_square _ _ _ Hboard Hin).
  - by apply jumpToStep_Some in Hjump as [_ ->].
  - intros i a b Ha Hb. by destruct i.
Qed.

(** * The history store: moves and time travel *)

(** C1.  When the current snapshot holds no marker at [index] and shows no
    winner, a click on that square yields a state whose history is the old
    history cut down to the indices [0 .. currentStep] followed by one new
    snapshot, the current one with [index] set to the next mover's marker,
    and whose [currentStep] is the index of that last snapshot.  In
    particular, when the state was obtained by jumping back to [step] in
    some history, everything after [step] in that history is gone. *)
Theorem advanceMove_truncates_and_appends
    (state : GameState) (index : Z) (squares : Squares) :
  Js.get (history state) (currentStep state) = Some squares ->
  Js.get squares index = Some None ->
  calculateWinner squares = None ->
  let squares' := <[Z.to_nat index := Some (calculateNextValue squares)]> squares in
  exists state',
    advanceMove state index = Ok state' /\
    history state' =
      take (S (Z.to_nat (currentStep state))) (history state) ++ [squares'] /\
    currentStep state' = Z.of_nat (length (history state')) - 1 /\
    Js.get (history state') (currentStep state') = Some squares' /\
    forall (origin : GameState) (step : nat),
      jumpToStep origin step = Some state ->
      history state' = take (S step) (history origin) ++ [squares'] /\
      length (history state') = S (S step).
Proof.
  intros Hcur Hcell Hwin squares'.
  pose proof (JsFacts.get_lt _ _ _ Hcur) as Hcs.
  eexists. split; [by apply advanceMove_accepted|]. simpl.
  assert (length (take (S (Z.to_nat (currentStep state))) (history state))
          = S (Z.to_nat (currentStep state))) as Hlen.
  { rewrite length_take. lia. }
  split; [done|]. split.
  { rewrite length_app, Hlen. simpl. lia. }
  split.
  { apply JsFacts.get_Some. split; [lia|].
    rewrite lookup_app_r; rewrite Hlen; [|lia].
    replace (Z.to_nat (currentStep state + 1) - S (Z.to_nat (currentStep state)))%nat
      with 0%nat by lia.
    done. }
  intros origin step [Hstep ->]%jumpToStep_Some. simpl.
  rewrite Nat2Z.id. split; [done|].
  rewrite length_app, length_take. cbn [length]. lia.
Qed.

Lemma advanceMove_truncates_and_appends_witness :
  exists state',
    advanceMove defaultState 4 = Ok state' /\
    history state' =
      take 1 (history defaultState)
        ++ [[None; None; None; None; Some X; None; None; None; None]] /\
    currentStep state' = Z.of_nat (length (history state')) - 1 /\
    Js.get (history state') (currentStep state')
      = Some [None; None; None; None; Some X; None; None; None; None] /\
    forall (origin : GameState) (step : nat),
      jumpToStep origin step = Some defaultState ->
      history state' =
        take (S step) (history origin)
          ++ [[None; None; None; None; Some X; None; None; None; None]] /\
      length (history state') = S (S step).
Proof.
  apply (advanceMove_truncates_and_appends defaultState 4 (replicate 9 None));
    reflexivity.
Defined.

(** C2.  When the current snapshot already holds a marker at [index], or
    shows a winner, a click on that square leaves the state, history and
    [currentStep], as it is. *)
Theorem advanceMove_noop (state : GameState) (index : Z) (squares : Squares) :
  Js.get (history state) (currentStep state) = Some squares ->
  (exists p, Js.get squares index = Some (Some p)) \/
  (exists p, calculateWinner squares = Some p) ->
  advanceMove state index = Ok state.
Proof.
  intros Hcur Hguard. apply (advanceMove_refused _ _ _ Hcur).
  destruct Hguard as [[p ->]|[p ->]]; simpl; [|done].
  by rewrite orb_true_r.
Qed.

Lemma advanceMove_noop_witness :
  advanceMove
    {| history := [replicate 9 None; <[4%nat := Some X]> (replicate 9 None)];
       currentStep := 1 |} 4
  = Ok {| history := [replicate 9 None; <[4%nat := Some X]> (replicate 9 None)];
          currentStep := 1 |}.
Proof.
  apply (advanceMove_noop _ 4 (<[4%nat := Some X]> (replicate 9 None)));
    [reflexivity|].
  left. exists X. reflexivity.
Defined.

(** C3.  For [0 <= step < length(history)] the [step]-th button of the move
    list sets [currentStep] to [step] and leaves the history as it is:
    same snapshots, same order, same length. *)
Theorem jumpToStep_sets_cursor_only (state : GameState) (step : Z) :
  0 <= step < Z.of_nat (length (history state)) ->
  exists button,
    moves state !! Z.to_nat step = Some button /\
    (forall previousState,
       history (onClick button previousState) = history previousState /\
       currentStep (onClick button previousState) = step) /\
    exists state',
      jumpToStep state (Z.to_nat step) = Some state' /\
      currentStep state' = step /\
      history state' = history state.
Proof.
  intros Hstep.
  destruct (moves_lookup state (Z.to_nat step)) as (button & Hb & _ & Hclick);
    [lia|].
  exists button. split; [done|]. split.
  - intros previousState. rewrite Hclick. simpl. split; [done|lia].
  - eexists. split.
    + apply jumpToStep_Some. split; [lia|done].
    + simpl. split; [lia|done].
Qed.

Lemma jumpToStep_sets_cursor_only_witness :
  exists button,
    moves {| history := [replicate 9 None; <[4%nat := Some X]> (replicate 9 None)];
             currentStep := 1 |} !! 0%nat = Some button /\
    (forall previousState,
       history (onClick button previousState) = history previousState /\
       currentStep (onClick button previousState) = 0) /\
    exists state',
      jumpToStep
        {| history := [replicate 9 None; <[4%nat := Some X]> (replicate 9 None)];
           currentStep := 1 |} 0 = Some state' /\
      currentStep state' = 0 /\
      history state' = [replicate 9 None; <[4%nat := Some X]> (replicate 9 None)].
Proof.
  apply (jumpToStep_sets_cursor_only
           {| history := [replicate 9 None; <[4%nat := Some X]> (replicate 9 None)];
              currentStep := 1 |} 0).
  simpl. lia.
Defined.

(** C8.  From the default state, one empty nine-cell snapshot and
    [currentStep] 0, a click on square 4 yields a history of length 2 whose
    snapshot 1 has the centre cell set to [X] and every other cell empty,
    with [currentStep] 1. *)
Theorem advanceMove_default_centre :
  defaultState =
    {| history := [[None; None; None; None; None; None; None; None; None]];
       currentStep := 0 |} /\
  exists state',
    advanceMove defaultState 4 = Ok state' /\
    length (history state') = 2%nat /\
    history state' !! 1%nat
      = Some [None; None; None; None; Some X; None; None; None; None] /\
    currentStep state' = 1.
Proof.
  split; [reflexivity|]. eexists. split; [reflexivity|]. simpl. done.
Qed.

(** The finished game is what five clicks on the default board give; on it
    every click is refused, and after rewinding to step 3 a click on
    square 2, which X took at step 5, is accepted for O and prunes the two
    later snapshots. *)
Example rewind_then_move :
  (let* s1 := advanceMove defaultState 0 in
   let* s2 := advanceMove s1 3 in
   let* s3 := advanceMove s2 1 in
   let* s4 := advanceMove s3 4 in
   advanceMove s4 2) = Ok finished_game /\
  (let* squares := currentSquares finished_game in Ok (calculateWinner squares))
    = Ok (Some X) /\
  advanceMove finished_game 5 = Ok finished_game /\
  jumpToStep finished_game 3 = Some rewound_game /\
  advanceMove rewound_game 2 =
    Ok {| history :=
            take 4 (history finished_game)
              ++ [[Some X; Some X; Some O; Some O; None; None; None; None; None]];
          currentStep := 4 |}.
Proof. repeat split; reflexivity. Qed.

(** C9.  A click on a square changes the state exactly when the snapshot at
    [currentStep] shows no winner and its cell at [index] is empty.  Both
    guards read that snapshot only: when the state was obtained by jumping
    back to [step] in some history, the snapshot that decides is that
    history's snapshot [step], whatever the later, pruned snapshots held. *)
Theorem advanceMove_changes_iff (state : GameState) (index : Z) (squares : Squares) :
  Js.get (history state) (currentStep state) = Some squares ->
  0 <= index ->
  ((exists state', advanceMove state index = Ok state' /\ state' <> state) <->
   calculateWinner squares = None /\ Js.get squares index = Some None) /\
  forall (origin : GameState) (step : nat),
    jumpToStep origin step = Some state ->
    history origin !! step = Some squares.
Proof.
  intros Hcur Hidx. split; [split|].
  - intros (state' & Hmove & Hne).
    rewrite (advanceMove_defined _ _ _ Hcur) in Hmove.
    destruct (calculateWinner squares) as [p|] eqn:Hwin; simpl in Hmove;
      [by injection Hmove as <-|].
    split; [done|].
    destruct (Js.get squares index) as [[p|]|] eqn:Hcell; simpl in Hmove.
    + by injection Hmove as <-.
    + done.
    + rewrite JsFacts.with_beyond in Hmove; [done|].
      unfold Js.get in Hcell. destruct (decide (0 <= index)); [|lia].
      apply lookup_ge_None in Hcell. lia.
  - intros [Hwin Hcell]. eexists. split; [by apply advanceMove_accepted|].
    intros Heq. apply (f_equal currentStep) in Heq. simpl in Heq. lia.
  - intros origin step [Hstep ->]%jumpToStep_Some. simpl in Hcur.
    apply JsFacts.get_Some in Hcur as [_ Hcur]. by rewrite Nat2Z.id in Hcur.
Qed.

Lemma advanceMove_changes_iff_witness :
  ((exists state', advanceMove rewound_game 2 = Ok state' /\ state' <> rewound_game) <->
   calculateWinner [Some X; Some X; None; Some O; None; None; None; None; None] = None /\
   Js.get [Some X; Some X; None; Some O; None; None; None; None; None] 2 = Some None) /\
  forall (origin : GameState) (step : nat),
    jumpToStep origin step = Some rewound_game ->
    history origin !! step
      = Some [Some X; Some X; None; Some O; None; None; None; None; None].
Proof.
  apply (advanceMove_changes_iff rewound_game 2); [reflexivity|lia].
Defined.

(** C10.  On a state whose cursor is in range (its snapshots being boards
    of nine cells) a click on a square [0 <= index < 9] never throws: the
    history and the snapshot are read inside their bounds and the copy with
    the square replaced succeeds.  The bound on [index] is needed: the
    guard on an occupied cell lets an index outside the board through, and
    on a board without winner the copy then throws a [RangeError]. *)
Theorem advanceMove_total (state : GameState) (index : Z) :
  cursor_in_range state ->
  nine_cells state ->
  0 <= index < 9 ->
  exists squares,
    Js.get (history state) (currentStep state) = Some squares /\
    is_Some (Js.get squares index) /\
    (exists state', advanceMove state index = Ok state') /\
    forall outside,
      calculateWinner squares = None ->
      outside < -9 \/ 9 <= outside ->
      advanceMove state outside = Throw RangeError.
Proof.
  intros Hcs Hnine Hidx.
  destruct (JsFacts.get_in_range (history state) (currentStep state) Hcs)
    as [squares Hcur].
  assert (length squares = 9%nat) as Hlen.
  { apply JsFacts.get_Some in Hcur as [_ Hcur].
    unfold nine_cells in Hnine. rewrite Forall_lookup in Hnine. eauto. }
  assert (is_Some (Js.get squares index)) as Hcell.
  { apply JsFacts.get_in_range. lia. }
  exists squares. split; [done|]. split; [done|]. split.
  - rewrite (advanceMove_defined _ _ _ Hcur).
    destruct (truthy (calculateWinner squares) || truthy_cell (Js.get squares index));
      [by eexists|].
    rewrite JsFacts.with_in_range by lia. simpl. by eexists.
  - intros outside Hwin Hout.
    apply (advanceMove_outside _ _ _ Hcur Hwin). lia.
Qed.

Lemma advanceMove_total_witness :
  exists squares,
    Js.get (history defaultState) (currentStep defaultState) = Some squares /\
    is_Some (Js.get squares 8) /\
    (exists state', advanceMove defaultState 8 = Ok state') /\
    forall outside,
      calculateWinner squares = None ->
      outside < -9 \/ 9 <= outside ->
      advanceMove defaultState outside = Throw RangeError.
Proof.
  apply (advanceMove_total defaultState 8).
  - unfold cursor_in_range. simpl. lia.
  - unfold nine_cells. simpl. repeat constructor.
  - lia.
Defined.

(** * The history store: invariants and persistence *)

(** C4.  The history is never empty and [0 <= currentStep <
    length(history)]: this holds of the default state and of the initial
    state whatever [localStorage] holds, it is kept by every click on a
    square, every button of the move list and restart, and so it holds of
    every reachable state. *)
Theorem well_formed_invariant :
  well_formed defaultState /\
  (forall item, well_formed (initialState item)) /\
  (forall state index state',
     well_formed state -> advanceMove state index = Ok state' -> well_formed state') /\
  (forall state step state',
     well_formed state -> jumpToStep state step = Some state' -> well_formed state') /\
  well_formed restart /\
  (forall state, reachable state -> well_formed state).
Proof.
  split; [apply defaultState_well_formed|].
  split; [intros item; apply initialState_well_formed|].
  split; [apply advanceMove_well_formed|].
  split; [apply jumpToStep_well_formed|].
  split; [apply defaultState_well_formed|].
  intros state Hreach. by apply reachable_well_formed.
Qed.

Lemma well_formed_invariant_witness :
  well_formed
    {| history :=
         [[None; None; None; None; None; None; None; None; None];
          [None; None; None; None; Some X; None; None; None; None]];
       currentStep := 1 |}.
Proof.
  destruct well_formed_invariant as (_ & _ & _ & _ & _ & Hreach).
  apply Hreach. exists None.
  change (initialState None) with defaultState. apply rtc_once.
  apply (event_square defaultState (Board (replicate 9 None))
           (renderSquare (replicate 9 None) 4)).
  - reflexivity.
  - unfold Board. apply list_elem_of_fmap. exists 4. split; [reflexivity|].
    repeat (apply list_elem_of_here || apply list_elem_of_further).
  - reflexivity.
Defined.

(** C5, as the code has it.  From the default state, or from any state
    whose history already is one move per snapshot, the clicks on the nine
    squares, the buttons of the move list and restart keep the history one
    move per snapshot: every snapshot but the first differs from its
    predecessor in exactly one cell, empty before and marked after. *)
Theorem move_by_move_invariant (start state : GameState) :
  start = defaultState \/ move_by_move (history start) ->
  rtc event start state ->
  move_by_move (history state).
Proof.
  intros Hstart Hrun.
  assert (move_by_move (history start)) as Hbase.
  { destruct Hstart as [->|H]; [|done]. intros i a b Ha Hb. by destruct i. }
  revert state Hrun.
  apply (rtc_ind_r (fun s => move_by_move (history s)) start); [done|].
  intros s1 s2 _ Hev IH. by eapply event_move_by_move.
Qed.

Lemma move_by_move_invariant_witness :
  move_by_move
    [[None; None; None; None; None; None; None; None; None];
     [None; None; None; None; Some X; None; None; None; None]].
Proof.
  apply (move_by_move_invariant defaultState
           {| history :=
                [[None; None; None; None; None; None; None; None; None];
                 [None; None; None; None; Some X; None; None; None; None]];
              currentStep := 1 |}).
  - left. reflexivity.
  - apply rtc_once.
    apply (event_square defaultState (Board (replicate 9 None))
             (renderSquare (replicate 9 None) 4)).
    + reflexivity.
    + unfold Board. apply list_elem_of_fmap. exists 4. split; [reflexivity|].
      repeat (apply list_elem_of_here || apply list_elem_of_further).
    + reflexivity.
Defined.

(** C5 as stated fails on a state accepted from [localStorage]: the text
    the application itself would write for [tampered_state] is read back
    and accepted at startup, so that state is reachable, and its snapshot 1
    differs from snapshot 0 in three cells. *)
Lemma tampered_state_accepted :
  initialState (Some (persist tampered_state)) = tampered_state /\
  reachable tampered_state /\
  ~ move_by_move (history tampered_state).
Proof.
  assert (initialState (Some (persist tampered_state)) = tampered_state) as Hinit.
  { vm_compute. reflexivity. }
  split; [done|]. split.
  - exists (Some (persist tampered_state)). rewrite Hinit. apply rtc_refl.
  - intros Hall.
    destruct (Hall 0%nat _ _ eq_refl eq_refl) as (i & p & Hi & Heq).
    do 9 (destruct i as [|i]; [by simplify_eq/=|]). done.
Qed.

(** C6.  At startup, when [localStorage] holds nothing under the key, or
    a text [JSON.parse] rejects, or a value [isValidGameState] rejects, the
    initial state is the default state, one empty nine-cell snapshot and
    [currentStep] 0; when the text parses to a valid value, that value is
    the initial state. *)
Theorem initialState_fallback (item : option string) :
  (item = None -> initialState item = defaultState) /\
  (forall text e,
     item = Some text -> JSON.parse text = Throw e ->
     initialState item = defaultState) /\
  (forall text candidate,
     item = Some text -> JSON.parse text = Ok candidate ->
     isValidGameState candidate = None ->
     initialState item = defaultState) /\
  (forall text candidate state,
     item = Some text -> JSON.parse text = Ok candidate ->
     isValidGameState candidate = Some state ->
     initialState item = state) /\
  defaultState = {| history := [replicate 9 None]; currentStep := 0 |}.
Proof.
  unfold initialState. repeat split.
  - by intros ->.
  - intros text e -> Hparse. simpl. by rewrite Hparse.
  - intros text candidate -> Hparse Hvalid. simpl. by rewrite Hparse, Hvalid.
  - intros text candidate state -> Hparse Hvalid. simpl. by rewrite Hparse, Hvalid.
Qed.

Lemma initialState_fallback_witness :
  initialState (Some (persist finished_game)) = finished_game.
Proof.
  destruct (initialState_fallback (Some (persist finished_game)))
    as (_ & _ & _ & Hvalid & _).
  apply (Hvalid (persist finished_game) (toJSON finished_game));
    [reflexivity| |]; vm_compute; reflexivity.
Defined.

(** C7.  A valid state, cursor in range and nine cells per snapshot,
    written with [JSON.stringify] as the persistence effect does and then
    read with [JSON.parse] and validated as the initialiser does, is the
    initial state of the next start. *)
Theorem persist_roundtrip (state : GameState) :
  cursor_in_range state ->
  nine_cells state ->
  JSON.parse (persist state) = Ok (toJSON state) /\
  isValidGameState (toJSON state) = Some state /\
  initialState (Some (persist state)) = state.
Proof.
  intros Hcs Hnine.
  pose proof (Roundtrip.parse_persist state) as Hparse.
  pose proof (Roundtrip.isValidGameState_toJSON state Hcs Hnine) as Hvalid.
  repeat split; [done..|].
  unfold initialState. simpl. by rewrite Hparse, Hvalid.
Qed.

Lemma persist_roundtrip_witness :
  JSON.parse (persist rewound_game) = Ok (toJSON rewound_game) /\
  isValidGameState (toJSON rewound_game) = Some rewound_game /\
  initialState (Some (persist rewound_game)) = rewound_game.
Proof.
  apply (persist_roundtrip rewound_game).
  - unfold cursor_in_range. simpl. lia.
  - unfold nine_cells. simpl. repeat constructor.
Defined.

(** * Further properties of the click handlers *)

Lemma currentSquares_Ok (state : GameState) (squares : Squares) :
  currentSquares state = Ok squares <->
  Js.get (history state) (currentStep state) = Some squares.
Proof.
  unfold currentSquares, Js.defined.
  destruct (Js.get (history state) (currentStep state)); split; congruence.
Qed.

(** After an accepted move, the new last snapshot is the current one. *)
Lemma get_after_append (snapshots : list Squares) (step : Z) (squares squares' : Squares) :
  Js.get snapshots step = Some squares ->
  Js.get (take (S (Z.to_nat step)) snapshots ++ [squares']) (step + 1) = Some squares'.
Proof.
  intros Hcur. pose proof (JsFacts.get_lt _ _ _ Hcur) as Hlt.
  apply JsFacts.get_Some. split; [lia|].
  assert (length (take (S (Z.to_nat step)) snapshots) = S (Z.to_nat step)) as Hlen
    by (rewrite length_take; lia).
  rewrite lookup_app_r; rewrite Hlen; [|lia].
  by replace (Z.to_nat (step + 1) - S (Z.to_nat step))%nat with 0%nat by lia.
Qed.

(** X1.  A click on a square that does not throw never rewrites the past:
    every snapshot up to and including the current one stays where it was,
    the history grows by one snapshot at most, the cursor stays or moves one
    step forward, and a click made at the last step loses no snapshot. *)
Theorem advanceMove_keeps_the_past
    (state : GameState) (index : Z) (state' : GameState) :
  advanceMove state index = Ok state' ->
  (forall i : nat,
     Z.of_nat i <= currentStep state ->
     history state' !! i = history state !! i) /\
  (length (history state') <= S (length (history state)))%nat /\
  currentStep state <= currentStep state' <= currentStep state + 1 /\
  (currentStep state = Z.of_nat (length (history state)) - 1 ->
   history state `prefix_of` history state').
Proof.
  intros [->|(squares & squares' & Hcur & _ & _ & _ & ->)]%advanceMove_Ok.
  { repeat split; try done; lia. }
  pose proof (JsFacts.get_lt _ _ _ Hcur) as Hcs.
  assert (length (take (S (Z.to_nat (currentStep state))) (history state))
          = S (Z.to_nat (currentStep state))) as Hlen
    by (rewrite length_take; lia).
  cbn [history currentStep]. repeat split; try lia.
  - intros i Hi. rewrite lookup_app_l by lia. apply lookup_take_lt. lia.
  - rewrite length_app, Hlen. cbn [length]. lia.
  - intros Hlast. rewrite take_ge by lia. by apply prefix_app_r.
Qed.

Lemma advanceMove_keeps_the_past_witness :
  (forall i : nat,
     Z.of_nat i <= currentStep rewound_game ->
     (take 4 (history finished_game)
        ++ [[Some X; Some X; Some O; Some O; None; None; None; None; None]]) !! i
     = history rewound_game !! i) /\
  (length (take 4 (history finished_game)
             ++ [[Some X; Some X; Some O; Some O; None; None; None; None; None]])
   <= S (length (history rewound_game)))%nat /\
  currentStep rewound_game <= 4 <= currentStep rewound_game + 1 /\
  (currentStep rewound_game = Z.of_nat (length (history rewound_game)) - 1 ->
   history rewound_game
     `prefix_of` take 4 (history finished_game)
                   ++ [[Some X; Some X; Some O; Some O; None; None; None; None; None]]).
Proof.
  apply (advanceMove_keeps_the_past rewound_game 2
           {| history :=
                take 4 (history finished_game)
                  ++ [[Some X; Some X; Some O; Some O; None; None; None; None; None]];
              currentStep := 4 |}).
  reflexivity.
Defined.

(** X2.  The guard of [selectSquare] reads [squares[index]], which is
    [undefined] for a negative index, while [Array.prototype.with] counts a
    negative index from the end: on a board without winner a click with
    [-length <= index < 0] is accepted and sets cell [length + index] to the
    next marker, whatever that cell held. *)
Theorem advanceMove_negative_index
    (state : GameState) (index : Z) (squares : Squares) :
  Js.get (history state) (currentStep state) = Some squares ->
  calculateWinner squares = None ->
  - Z.of_nat (length squares) <= index < 0 ->
  advanceMove state index =
    Ok {| history :=
            take (S (Z.to_nat (currentStep state))) (history state)
              ++ [<[Z.to_nat (Z.of_nat (length squares) + index)
                     := Some (calculateNextValue squares)]> squares];
          currentStep := currentStep state + 1 |}.
Proof.
  intros Hcur Hwin Hidx.
  pose proof (JsFacts.get_lt _ _ _ Hcur) as Hcs.
  rewrite (advanceMove_defined _ _ _ Hcur), Hwin.
  assert (Js.get squares index = None) as ->.
  { unfold Js.get. destruct (decide (0 <= index)); [lia|done]. }
  cbn [truthy truthy_cell orb]. unfold Js.with_.
  destruct (Z.ltb_spec index 0); [|lia].
  destruct (Z.ltb_spec (Z.of_nat (length squares) + index) 0); [lia|].
  destruct (Z.leb_spec (Z.of_nat (length squares))
              (Z.of_nat (length squares) + index)); [lia|].
  cbn [orb rbind]. rewrite JsFacts.slice_upto by done.
  rewrite length_take. do 2 f_equal. lia.
Qed.

Lemma advanceMove_negative_index_witness :
  advanceMove
    {| history :=
         [[None; None; None; None; None; None; None; None; None];
          [None; None; None; None; None; None; None; None; Some X]];
       currentStep := 1 |} (-1)
  = Ok {| history :=
            take 2
              [[None; None; None; None; None; None; None; None; None];
               [None; None; None; None; None; None; None; None; Some X]]
            ++ [<[8%nat := Some O]>
                  [None; None; None; None; None; None; None; None; Some X]];
          currentStep := 1 + 1 |}.
Proof.
  apply (advanceMove_negative_index
           {| history :=
                [[None; None; None; None; None; None; None; None; None];
                 [None; None; None; None; None; None; None; None; Some X]];
              currentStep := 1 |} (-1)
           [None; None; None; None; None; None; None; None; Some X]).
  - reflexivity.
  - reflexivity.
  - simpl. lia.
Defined.

(** X3.  The updater that [selectSquare] hands to [setState] takes the
    history and the cursor from [previousState] and the marker from the
    render it was created in, and checks nothing again: applied to any
    [previousState] whose cursor and [index] are in range, it cuts that
    history after its cursor and appends its current snapshot with [index]
    set to the render's [nextValue], whatever the cell held. *)
Theorem selectSquare_updater
    (state : GameState) (index : Z) (updater : GameState -> result GameState)
    (previousState : GameState) (current : Squares) :
  selectSquare state index = Ok (Some updater) ->
  Js.get (history previousState) (currentStep previousState) = Some current ->
  0 <= index < Z.of_nat (length current) ->
  exists mark,
    nextValue state = Ok mark /\
    updater previousState =
      Ok {| history :=
              take (S (Z.to_nat (currentStep previousState))) (history previousState)
                ++ [<[Z.to_nat index := Some mark]> current];
            currentStep := currentStep previousState + 1 |}.
Proof.
  intros Hselect Hcur Hidx.
  pose proof (JsFacts.get_lt _ _ _ Hcur) as Hcs.
  unfold selectSquare, winner, nextValue in *.
  destruct (currentSquares state) as [squares|]; [|done]. cbn [rbind] in *.
  destruct (truthy (calculateWinner squares) || truthy_cell (Js.get squares index));
    [done|].
  injection Hselect as <-. eexists. split; [done|].
  rewrite Hcur. cbn [Js.defined rbind].
  rewrite JsFacts.with_in_range by done. cbn [rbind].
  rewrite JsFacts.slice_upto by done. rewrite length_take. do 2 f_equal. lia.
Qed.

Lemma selectSquare_updater_witness :
  exists updater,
    selectSquare defaultState 0 = Ok (Some updater) /\
    exists mark,
      nextValue defaultState = Ok mark /\
      updater
        {| history :=
             [[None;   None; None; None; None; None; None; None; None];
              [Some O; None; None; None; None; None; None; None; None]];
           currentStep := 1 |}
      = Ok {| history :=
                take 2
                  [[None;   None; None; None; None; None; None; None; None];
                   [Some O; None; None; None; None; None; None; None; None]]
                ++ [<[0%nat := Some mark]>
                      [Some O; None; None; None; None; None; None; None; None]];
              currentStep := 1 + 1 |}.
Proof.
  eexists. split; [reflexivity|].
  eapply (selectSquare_updater defaultState 0 _
            {| history :=
                 [[None;   None; None; None; None; None; None; None; None];
                  [Some O; None; None; None; None; None; None; None; None]];
               currentStep := 1 |}
            [Some O; None; None; None; None; None; None; None; None]).
  - reflexivity.
  - reflexivity.
  - simpl. lia.
Defined.

(** * Further properties of the move list and the board *)

Lemma moves_lookup_Some (state : GameState) (k : nat) (button : MoveButton) :
  moves state !! k = Some button ->
  (k < length (history state))%nat /\
  key button = Z.of_nat k /\
  disabled button = bool_decide (Z.of_nat k = currentStep state) /\
  desc button =
    if Z.of_nat k =? 0 then "Go to game start"%string
    else ("Go to move number " ++ JSON.decimal_Z (Z.of_nat k))%string.
Proof.
  unfold moves. rewrite list_lookup_imap.
  destruct (history state !! k) as [squares|] eqn:Hk; [|done].
  apply lookup_lt_Some in Hk. cbn [fmap option_fmap option_map]. by intros [= <-].
Qed.

(** X4.  The move list has one button per snapshot of the history, in
    order; button [k] has key [k], is the one that reads "Go to game start"
    exactly when [k] is 0, and is disabled exactly when [k] is the current
    step; so with the cursor in range exactly one button, the one of the
    current step, is disabled. *)
Theorem moves_one_button_per_snapshot (state : GameState) :
  length (moves state) = length (history state) /\
  (forall (k : nat) (button : MoveButton),
     moves state !! k = Some button ->
     key button = Z.of_nat k /\
     (disabled button = true <-> Z.of_nat k = currentStep state) /\
     (desc button = "Go to game start"%string <-> k = 0%nat)) /\
  (cursor_in_range state ->
   exists button,
     moves state !! Z.to_nat (currentStep state) = Some button /\
     disabled button = true).
Proof.
  split; [unfold moves; apply length_imap|]. split.
  - intros k button (_ & Hkey & Hdis & Hdesc)%moves_lookup_Some.
    split; [done|]. split.
    + rewrite Hdis. apply bool_decide_eq_true.
    + rewrite Hdesc. destruct k as [|k]; [done|].
      destruct (Z.eqb_spec (Z.of_nat (S k)) 0); [lia|]. done.
  - intros Hcs. unfold cursor_in_range in Hcs.
    destruct (moves_lookup state (Z.to_nat (currentStep state)))
      as (button & Hb & Hdis & _); [lia|].
    exists button. split; [done|]. rewrite Hdis. apply bool_decide_eq_true. lia.
Qed.

(** X5.  Jumps compose and can be undone: a jump followed by a second one
    is the second one alone, and from a state whose cursor is in range a
    jump followed by the jump back to the step it left gives that state
    again. *)
Theorem jumpToStep_composes
    (state : GameState) (a b : nat) (state1 state2 : GameState) :
  jumpToStep state a = Some state1 ->
  jumpToStep state1 b = Some state2 ->
  jumpToStep state b = Some state2 /\
  (cursor_in_range state ->
   jumpToStep state1 (Z.to_nat (currentStep state)) = Some state).
Proof.
  intros [Ha ->]%jumpToStep_Some [Hb ->]%jumpToStep_Some. cbn [history] in *.
  split; [by apply jumpToStep_Some|].
  intros Hcs. unfold cursor_in_range in Hcs. apply jumpToStep_Some.
  cbn [history]. split; [lia|]. rewrite Z2Nat.id by lia. by destruct state.
Qed.

Lemma jumpToStep_composes_witness :
  jumpToStep finished_game 1 = Some {| history := history finished_game; currentStep := 1 |} /\
  (cursor_in_range finished_game ->
   jumpToStep rewound_game (Z.to_nat (currentStep finished_game))
   = Some finished_game).
Proof.
  apply (jumpToStep_composes finished_game 3 1 rewound_game); reflexivity.
Defined.

Lemma Board_lookup (squares : Squares) (k : nat) (button : SquareButton) :
  Board squares !! k = Some button <->
  (k < 9)%nat /\ button = renderSquare squares (Z.of_nat k).
Proof.
  unfold Board. rewrite list_lookup_fmap.
  do 9 (destruct k as [|k]; [cbn; split; [by intros [= <-]; split; [lia|]
                                          |by intros [_ ->]]|]).
  cbn. split; [done|]. intros [Hk _]. lia.
Qed.

(** X6.  A jump shows the snapshot it names: after a click on the
    [step]-th button of the move list the board is the [Board] of snapshot
    [step] of the history, and the move list still has the same buttons
    as before, apart from the one that is disabled. *)
Theorem jumpToStep_shows_snapshot
    (state : GameState) (step : nat) (state' : GameState) :
  jumpToStep state step = Some state' ->
  exists squares,
    history state !! step = Some squares /\
    board state' = Ok (Board squares) /\
    map key (moves state') = map key (moves state) /\
    map desc (moves state') = map desc (moves state).
Proof.
  intros [Hstep ->]%jumpToStep_Some.
  destruct (lookup_lt_is_Some_2 _ _ Hstep) as [squares Hsq].
  exists squares. split; [done|]. split.
  - unfold board, currentSquares, Js.get. cbn [history currentStep].
    destruct (decide (0 <= Z.of_nat step)); [|lia].
    by rewrite Nat2Z.id, Hsq.
  - unfold moves. cbn [history]. split; apply list_eq; intros i;
      rewrite !list_lookup_fmap, !list_lookup_imap;
      by destruct (history state !! i).
Qed.

Lemma jumpToStep_shows_snapshot_witness :
  exists squares,
    history finished_game !! 3%nat = Some squares /\
    board rewound_game = Ok (Board squares) /\
    map key (moves rewound_game) = map key (moves finished_game) /\
    map desc (moves rewound_game) = map desc (moves finished_game).
Proof.
  apply (jumpToStep_shows_snapshot finished_game 3 rewound_game). reflexivity.
Defined.

Lemma append_cancel (a b c : string) : (a ++ b = a ++ c)%string -> b = c.
Proof. induction a as [|x a IH]; cbn; [done|]. intros [= H]. by apply IH. Qed.

(** X7.  The board shows the snapshot it is given: it has nine buttons,
    button [k] passes [k] to [onClick] and shows cell [k] of the snapshot
    (nothing where the snapshot has no such cell), and its label ends in
    "empty" exactly when it shows no marker. *)
Theorem Board_shows_snapshot (squares : Squares) :
  length (Board squares) = 9%nat /\
  forall (k : nat) (button : SquareButton),
    Board squares !! k = Some button ->
    square button = Z.of_nat k /\
    value button = squares !! k /\
    (label button = ("square " ++ JSON.decimal_Z (Z.of_nat k) ++ " empty")%string
     <-> ~ exists p, squares !! k = Some (Some p)).
Proof.
  split; [done|]. intros k button [Hk ->]%Board_lookup.
  unfold renderSquare. cbn [square value label].
  assert (Js.get squares (Z.of_nat k) = squares !! k) as ->.
  { unfold Js.get. destruct (decide (0 <= Z.of_nat k)); [|lia]. by rewrite Nat2Z.id. }
  split; [done|]. split; [done|].
  destruct (squares !! k) as [[p|]|].
  - split; [|intros []; eauto].
    intros Heq%append_cancel%append_cancel. by destruct p.
  - split; [|done]. intros _ [p Hp]. done.
  - split; [|done]. intros _ [p Hp]. done.
Qed.

(** * Further properties of a game played from the default state *)

Lemma get_insert {A} (arr : list A) (i : nat) (v : A) (j : Z) :
  (i < length arr)%nat ->
  Js.get (<[i := v]> arr) j =
    if decide (j = Z.of_nat i) then Some v else Js.get arr j.
Proof.
  intros Hi. unfold Js.get.
  destruct (decide (j = Z.of_nat i)) as [->|Hne].
  - destruct (decide (0 <= Z.of_nat i)); [|lia].
    rewrite Nat2Z.id. by apply list_lookup_insert_eq.
  - destruct (decide (0 <= j)); [|done].
    apply list_lookup_insert_ne. lia.
Qed.

(** X8.  An accepted click changes the board in one place: on a board
    without winner, a click on the button that shows an empty cell is
    accepted, and the board rendered next shows the mover's marker on that
    button and what it showed before on every other one. *)
Theorem board_click_marks_one_square
    (state : GameState) (buttons : list SquareButton) (k : nat)
    (button : SquareButton) :
  board state = Ok buttons ->
  buttons !! k = Some button ->
  value button = Some None ->
  winner state = Ok None ->
  exists mark state' buttons',
    nextValue state = Ok mark /\
    advanceMove state (square button) = Ok state' /\
    board state' = Ok buttons' /\
    map value buttons' = <[k := Some (Some mark)]> (map value buttons) /\
    map square buttons' = map square buttons.
Proof.
  unfold board, winner, nextValue.
  destruct (currentSquares state) as [squares|] eqn:Hcur; [|done].
  apply currentSquares_Ok in Hcur. cbn [rbind].
  intros [= <-] [Hk ->]%Board_lookup Hcell [= Hwin].
  cbn [value square renderSquare] in *.
  pose proof (JsFacts.get_lt _ _ _ Hcell) as Hidx.
  eexists _, _, _. split; [done|].
  split; [by apply advanceMove_accepted|].
  unfold currentSquares. cbn [history currentStep].
  rewrite (get_after_append _ _ _ _ Hcur). cbn [Js.defined rbind].
  split; [done|]. rewrite Nat2Z.id. split.
  - apply list_eq. intros j.
    destruct (decide (j = k)) as [->|Hne].
    + rewrite list_lookup_insert_eq by (rewrite length_map; cbn; lia).
      rewrite list_lookup_fmap.
      destruct (Board _ !! k) as [b|] eqn:Hb.
      * apply Board_lookup in Hb as [_ ->]. cbn.
        rewrite (get_insert (A := option Player)) by lia. by destruct (decide _).
      * apply lookup_ge_None in Hb. cbn in Hb. lia.
    + rewrite list_lookup_insert_ne by done. rewrite !list_lookup_fmap.
      destruct (Board (<[k:=_]> squares) !! j) as [b|] eqn:Hb.
      * apply Board_lookup in Hb as [Hj ->].
        rewrite (proj2 (Board_lookup squares j _) (conj Hj eq_refl)). cbn.
        rewrite (get_insert (A := option Player)) by lia. destruct (decide _); [lia|done].
      * apply lookup_ge_None in Hb.
        symmetry. cbn [fmap option_fmap option_map].
        assert (Board squares !! j = None) as ->; [|done].
        apply lookup_ge_None. cbn in *. lia.
  - done.
Qed.

Lemma board_click_marks_one_square_witness :
  exists mark state' buttons',
    nextValue rewound_game = Ok mark /\
    advanceMove rewound_game
      (square (renderSquare
                 [Some X; Some X; None; Some O; None; None; None; None; None] 2))
      = Ok state' /\
    board state' = Ok buttons' /\
    map value buttons' =
      <[2%nat := Some (Some mark)]>
        (map value
           (Board [Some X; Some X; None; Some O; None; None; None; None; None])) /\
    map square buttons' =
      map square (Board [Some X; Some X; None; Some O; None; None; None; None; None]).
Proof.
  apply (board_click_marks_one_square rewound_game
           (Board [Some X; Some X; None; Some O; None; None; None; None; None]) 2);
    reflexivity.
Defined.


Lemma played_well_formed (state : GameState) :
  rtc event defaultState state -> well_formed state /\ nine_cells state.
Proof.
  revert state.
  apply (rtc_ind_r (fun s => well_formed s /\ nine_cells s) defaultState).
  - split; [apply defaultState_well_formed|apply defaultState_nine_cells].
  - intros s1 s2 _ Hev IH. by eapply event_well_formed.
Qed.







(** Every move of a game played from the default state was an accepted
    click: the snapshot before it showed no winner, and the snapshot after
    it is that one with the mover's marker on a cell that was empty. *)
Lemma event_replayable (state state' : GameState) :
  event state state' ->
  (forall (k : nat) (before after : Squares),
     history state !! k = Some before -> history state !! S k = Some after ->
     calculateWinner before = None /\
     exists i : nat,
       before !! i = Some None /\
       after = <[i := Some (calculateNextValue before)]> before) ->
  forall (k : nat) (before after : Squares),
    history state' !! k = Some before -> history state' !! S k = Some after ->
    calculateWinner before = None /\
    exists i : nat,
      before !! i = Some None /\
      after = <[i := Some (calculateNextValue before)]> before.
Proof.
  intros [s buttons button s' Hboard Hin Hmove|s step s' Hjump|s] Hall k before after
    Hk HSk.
  - destruct (board_square _ _ _ Hboard Hin) as [Hidx _].
    apply advanceMove_Ok in Hmove
      as [->|(current & squares' & Hcur & Hwin & Hcell & Hwith & ->)];
      [by eapply Hall|].
    cbn [history] in Hk, HSk.
    apply JsFacts.get_Some in Hcur as [Hcs Hcur].
    pose proof (lookup_lt_Some _ _ _ Hcur) as Hlt.
    assert (length (take (S (Z.to_nat (currentStep s))) (history s))
            = S (Z.to_nat (currentStep s))) as Hlen
      by (rewrite length_take; lia).
    destruct (decide (k < Z.to_nat (currentStep s))%nat) as [Hlow|Hhigh].
    + rewrite lookup_app_l, lookup_take_lt in Hk, HSk by lia. by eapply Hall.
    + assert (k = Z.to_nat (currentStep s)) as ->.
      { apply lookup_lt_Some in HSk. rewrite length_app, Hlen in HSk.
        cbn [length] in HSk. lia. }
      rewrite lookup_app_l, lookup_take_lt in Hk by lia.
      rewrite lookup_app_r in HSk by lia. rewrite Hlen, Nat.sub_diag in HSk.
      cbn in HSk. injection HSk as <-. rewrite Hcur in Hk. injection Hk as <-.
      split; [done|].
      destruct (decide (square button < Z.of_nat (length current))) as [Hin'|Hout];
        [|by rewrite JsFacts.with_beyond in Hwith by lia].
      rewrite JsFacts.with_in_range in Hwith by lia. injection Hwith as <-.
      destruct (JsFacts.get_in_range current (square button)) as [[p|] Hget];
        [lia|by rewrite Hget in Hcell|].
      apply JsFacts.get_Some in Hget as [_ Hget]. eauto.
  - apply jumpToStep_Some in Hjump as [_ ->]. by eapply Hall.
  - by destruct k.
Qed.

(** X11.  A move can be replayed: in a game played from the default state,
    after a jump back to a step [k] that is not the last one, the board has
    a button whose click is accepted and builds snapshot [k + 1] again,
    leaving the history as it was up to step [k + 1] and dropping every
    later snapshot. *)
Theorem rewind_and_replay (state : GameState) (k : nat) (rewound : GameState) :
  rtc event defaultState state ->
  jumpToStep state k = Some rewound ->
  (S k < length (history state))%nat ->
  exists buttons button,
    board rewound = Ok buttons /\
    button ∈ buttons /\
    advanceMove rewound (square button) =
      Ok {| history := take (S (S k)) (history state);
            currentStep := Z.of_nat k + 1 |}.
Proof.
  intros Hrun [Hk ->]%jumpToStep_Some HSk.
  destruct (played_well_formed _ Hrun) as [_ Hnine].
  assert (forall (j : nat) (before after : Squares),
            history state !! j = Some before -> history state !! S j = Some after ->
            calculateWinner before = None /\
            exists i : nat,
              before !! i = Some None /\
              after = <[i := Some (calculateNextValue before)]> before)
    as Hmoves.
  { clear Hk HSk Hnine. revert state Hrun.
    apply (rtc_ind_r
             (fun s =>
                forall (j : nat) (before after : Squares),
                  history s !! j = Some before -> history s !! S j = Some after ->
                  calculateWinner before = None /\
                  exists i : nat,
                    before !! i = Some None /\
                    after = <[i := Some (calculateNextValue before)]> before)
             defaultState).
    - by intros [|j].
    - intros s1 s2 _ Hev IH. by apply (event_replayable _ _ Hev). }
  destruct (lookup_lt_is_Some_2 _ _ Hk) as [before Hbefore].
  destruct (lookup_lt_is_Some_2 _ _ HSk) as [after Hafter].
  destruct (Hmoves _ _ _ Hbefore Hafter) as (Hwin & i & Hi & ->).
  assert (length before = 9%nat) as Hlen.
  { unfold nine_cells in Hnine. rewrite Forall_lookup in Hnine. eauto. }
  pose proof (lookup_lt_Some _ _ _ Hi) as Hi9.
  assert (Js.get (history state) (Z.of_nat k) = Some before) as Hcur.
  { apply JsFacts.get_Some. split; [lia|]. by rewrite Nat2Z.id. }
  exists (Board before), (renderSquare before (Z.of_nat i)). split; [|split].
  - unfold board, currentSquares. cbn [history currentStep]. by rewrite Hcur.
  - apply list_elem_of_lookup. exists i. apply Board_lookup. split; [lia|done].
  - cbn [square renderSquare].
    rewrite (advanceMove_accepted _ _ before); cbn [history currentStep]; try done.
    + rewrite !Nat2Z.id. by rewrite (take_S_r _ (S k) _ Hafter).
    + apply JsFacts.get_Some. split; [lia|]. by rewrite Nat2Z.id.
Qed.

Lemma rewind_and_replay_witness :
  exists buttons button,
    board {| history := [replicate 9 None; <[4%nat := Some X]> (replicate 9 None)];
             currentStep := 0 |}
      = Ok buttons /\
    button ∈ buttons /\
    advanceMove
      {| history := [replicate 9 None; <[4%nat := Some X]> (replicate 9 None)];
         currentStep := 0 |}
      (square button)
    = Ok {| history := take 2 [replicate 9 None; <[4%nat := Some X]> (replicate 9 None)];
            currentStep := Z.of_nat 0 + 1 |}.
Proof.
  apply (rewind_and_replay
           {| history := [replicate 9 None; <[4%nat := Some X]> (replicate 9 None)];
              currentStep := 1 |} 0).
  - apply rtc_once.
    apply (event_square defaultState (Board (replicate 9 None))
             (renderSquare (replicate 9 None) 4)).
    + reflexivity.
    + apply list_elem_of_lookup. exists 4%nat. reflexivity.
    + reflexivity.
  - reflexivity.
  - simpl. lia.
Defined.

(** * Further properties of the persisted text *)

Lemma square_toJSON_inj (c c' : option Player) :
  square_toJSON c = square_toJSON c' -> c = c'.
Proof. by destruct c as [[]|], c' as [[]|]. Qed.

Lemma squares_toJSON_inj (squares squares' : list (option Player)) :
  squares_toJSON squares = squares_toJSON squares' -> squares = squares'.
Proof.
  unfold squares_toJSON. intros [= H]. revert squares' H.
  induction squares as [|c squares IH]; intros [|c' squares'] H; try done.
  cbn in H. injection H as Hc H. f_equal; [by apply square_toJSON_inj|by apply IH].
Qed.

Lemma toJSON_inj (state state' : GameState) :
  toJSON state = toJSON state' -> state = state'.
Proof.
  destruct state as [h cs], state' as [h' cs']. unfold toJSON. cbn [history currentStep].
  intros [= H ->]. f_equal. revert h' H.
  induction h as [|squares h IH]; intros [|squares' h'] H; try done.
  cbn [map] in H. injection H as Hs H.
  f_equal; [apply squares_toJSON_inj; unfold squares_toJSON; by rewrite Hs
           |by apply IH].
Qed.

Lemma isSquares_toJSON_Some (squares squares' : list (option Player)) :
  isSquares (squares_toJSON squares) = Some squares' -> squares' = squares.
Proof.
  unfold isSquares, squares_toJSON.
  rewrite (mapM_fmap_Some _ _ _ Roundtrip.isSquare_toJSON). cbn.
  destruct (decide (length squares = 9%nat)); [|done]. by intros [= <-].
Qed.

Lemma mapM_isSquares_toJSON (snapshots snapshots' : list Squares) :
  mapM isSquares (map squares_toJSON snapshots) = Some snapshots' ->
  snapshots' = snapshots.
Proof.
  revert snapshots'. induction snapshots as [|squares snapshots IH];
    intros snapshots' H%mapM_Some_1.
  - by apply Forall2_nil_inv_l in H.
  - cbn [map] in H. apply Forall2_cons_inv_l in H as (sq & rest & Hsq & Hrest & ->).
    f_equal; [by apply isSquares_toJSON_Some|]. apply IH. by apply mapM_Some_2.
Qed.

(** The guard answers for the candidate it is given: on the JSON value of
    a state it returns that state or refuses. *)
Lemma isValidGameState_toJSON_Some (state state' : GameState) :
  isValidGameState (toJSON state) = Some state' -> state' = state.
Proof.
  destruct state as [h cs]. unfold isValidGameState, toJSON.
  cbn [history currentStep JSON.prop].
  destruct (decide _); [|done]. destruct (decide _); [done|].
  destruct (decide _); [|done].
  destruct (mapM isSquares (map squares_toJSON h)) as [h'|] eqn:Hh; [|done].
  cbn. destruct (decide _); [|done]. intros [= <-].
  by rewrite (mapM_isSquares_toJSON _ _ Hh).
Qed.

(** X12.  The text the persistence effect writes is always read back at
    the next start: [JSON.parse] never throws on it, so the [catch] branch
    of the initialiser is not taken; the initial state is then the state
    that was written or, when the guard refuses it, the default state, and
    never a third one; and two different states are never written as the
    same text. *)
Theorem persisted_text_is_read_back (state state' : GameState) :
  JSON.parse (persist state) = Ok (toJSON state) /\
  (initialState (Some (persist state)) = state \/
   initialState (Some (persist state)) = defaultState) /\
  (persist state = persist state' -> state = state').
Proof.
  pose proof (Roundtrip.parse_persist state) as Hparse.
  split; [done|]. split.
  - unfold initialState. simpl. rewrite Hparse.
    destruct (isValidGameState (toJSON state)) as [s|] eqn:Hvalid; [|by right].
    left. by apply isValidGameState_toJSON_Some.
  - intros Heq. apply toJSON_inj.
    pose proof (Roundtrip.parse_persist state') as Hparse'.
    rewrite <- Heq, Hparse in Hparse'. congruence.
Qed.
